(** * surreallog: a shallow embedding of the line pipeline and its checked properties

    The development follows the Go sources:
    - [internal/ghc/ghc.go]: the workflow-command parser ([PraseGHC]), its
      percent-unescaping, the whitespace trimming and the option coercion;
    - [main.go]: the line splitter ([splitFunc]), the masking, the per-line
      body of [streamReader], and the batching [sender];
    - [internal/sdb/sdb.go]: the id sequence, the correlation table and [rpc].

    Go byte slices are [list ascii]; Go strings are [string]; Go [int] and
    [uint64] are [Z] with the wrap-around written where the code can reach it;
    Go maps are [gmap]. *)

From Stdlib Require Import ZArith Ascii String DecimalString Lia.
From stdpp Require Import gmap strings list fin_maps.

Local Open Scope Z_scope.

(** ** Bytes *)

Abbreviation byte := ascii (only parsing).
Abbreviation bytes := (list ascii) (only parsing).

Definition b2z (c : byte) : Z := Z.of_N (N_of_ascii c).

Definition B (s : string) : bytes := list_ascii_of_string s.
Definition S_ (b : bytes) : string := string_of_list_ascii b.

Definition LF : byte := "010"%char.
Definition CR : byte := "013"%char.
Definition TAB : byte := "009"%char.
Definition VT : byte := "011"%char.
Definition FF : byte := "012"%char.
Definition SP : byte := " "%char.

Definition beq (a b : byte) : bool := Ascii.eqb a b.

(** [s[lo:hi]] *)
Definition sub (s : bytes) (lo hi : nat) : bytes := take (hi - lo) (drop lo s).

(** ** The part of [unicode/utf8], [unicode] and [bytes] that the code calls *)

Module utf8.

Definition RuneSelf : Z := 128.
Definition RuneError : Z := 65533.
Definition UTFMax : nat := 4.

(** The [first] table together with [acceptRanges]: for a leading byte, the
    length of the sequence and the range accepted for the second byte. *)
Definition first (p0 : Z) : option (nat * Z * Z) :=
  if (194 <=? p0) && (p0 <=? 223) then Some (2%nat, 128, 191)
  else if p0 =? 224 then Some (3%nat, 160, 191)
  else if (225 <=? p0) && (p0 <=? 236) then Some (3%nat, 128, 191)
  else if p0 =? 237 then Some (3%nat, 128, 159)
  else if (238 <=? p0) && (p0 <=? 239) then Some (3%nat, 128, 191)
  else if p0 =? 240 then Some (4%nat, 144, 191)
  else if (241 <=? p0) && (p0 <=? 243) then Some (4%nat, 128, 191)
  else if p0 =? 244 then Some (4%nat, 128, 143)
  else None.

Definition cont (b : Z) : bool := (128 <=? b) && (b <=? 191).

Definition DecodeRune (p : bytes) : Z * nat :=
  match p with
  | [] => (RuneError, 0%nat)
  | c0 :: t =>
    let p0 := b2z c0 in
    if p0 <? RuneSelf then (p0, 1%nat)
    else match first p0 with
    | None => (RuneError, 1%nat)
    | Some (sz, lo, hi) =>
      if (length p <? sz)%nat then (RuneError, 1%nat)
      else match t with
      | [] => (RuneError, 1%nat)
      | c1 :: t1 =>
        let b1 := b2z c1 in
        if (b1 <? lo) || (hi <? b1) then (RuneError, 1%nat)
        else if (sz <=? 2)%nat
        then (Z.lor (Z.shiftl (Z.land p0 31) 6) (Z.land b1 63), 2%nat)
        else match t1 with
        | [] => (RuneError, 1%nat)
        | c2 :: t2 =>
          let b2 := b2z c2 in
          if negb (cont b2) then (RuneError, 1%nat)
          else if (sz <=? 3)%nat
          then (Z.lor (Z.lor (Z.shiftl (Z.land p0 15) 12)
                             (Z.shiftl (Z.land b1 63) 6))
                      (Z.land b2 63), 3%nat)
          else match t2 with
          | [] => (RuneError, 1%nat)
          | c3 :: _ =>
            let b3 := b2z c3 in
            if negb (cont b3) then (RuneError, 1%nat)
            else (Z.lor (Z.lor (Z.lor (Z.shiftl (Z.land p0 7) 18)
                                      (Z.shiftl (Z.land b1 63) 12))
                               (Z.shiftl (Z.land b2 63) 6))
                        (Z.land b3 63), 4%nat)
          end
        end
      end
    end
  end.

Definition RuneStart (b : Z) : bool := negb (Z.land b 192 =? 128).

(** The backward search of [DecodeLastRune]:
    [for start--; start >= lim; start-- { if RuneStart(p[start]) { break } }]. *)
Fixpoint lastStart (p : bytes) (lim start : Z) (n : nat) : Z :=
  match n with
  | O => start
  | S n' =>
    if start <? lim then start
    else match p !! Z.to_nat start with
    | Some c => if RuneStart (b2z c) then start
                else lastStart p lim (start - 1) n'
    | None => start
    end
  end.

Definition DecodeLastRune (p : bytes) : Z * nat :=
  let end_ := Z.of_nat (length p) in
  match last p with
  | None => (RuneError, 0%nat)
  | Some c =>
    let r := b2z c in
    if r <? RuneSelf then (r, 1%nat)
    else
      let lim := Z.max 0 (end_ - Z.of_nat UTFMax) in
      let start := Z.max 0 (lastStart p lim (end_ - 2) (S UTFMax)) in
      let '(r', size) := DecodeRune (sub p (Z.to_nat start) (length p)) in
      if negb (start + Z.of_nat size =? end_) then (RuneError, 1%nat)
      else (r', size)
  end.

End utf8.

Module unicode.

(** [unicode.IsSpace]: the Latin-1 cases and the [White_Space] table. *)
Definition IsSpace (r : Z) : bool :=
  if (0 <=? r) && (r <=? 255) then
    (r =? 9) || (r =? 10) || (r =? 11) || (r =? 12) || (r =? 13) || (r =? 32)
    || (r =? 133) || (r =? 160)
  else
    (r =? 5760) || ((8192 <=? r) && (r <=? 8202)) || (r =? 8232) || (r =? 8233)
    || (r =? 8239) || (r =? 8287) || (r =? 12288).

End unicode.

Module gobytes.

(** [bytes.HasPrefix] *)
Fixpoint HasPrefix (s prefix : bytes) : bool :=
  match prefix, s with
  | [], _ => true
  | p :: prefix', c :: s' => beq p c && HasPrefix s' prefix'
  | _ :: _, [] => false
  end.

Definition runeAt (s : bytes) (i : nat) : Z * nat :=
  match s !! i with
  | Some c => if utf8.RuneSelf <=? b2z c then utf8.DecodeRune (drop i s)
              else (b2z c, 1%nat)
  | None => (utf8.RuneError, 0%nat)
  end.

(** [indexFunc]: [None] stands for the result -1. *)
Fixpoint indexFunc (f : Z -> bool) (truth : bool) (s : bytes)
    (start : nat) (n : nat) : option nat :=
  match n with
  | O => None
  | S n' =>
    if (start <? length s)%nat then
      let '(r, wid) := runeAt s start in
      if Bool.eqb (f r) truth then Some start
      else indexFunc f truth s (start + wid) n'
    else None
  end.

Fixpoint lastIndexFunc (f : Z -> bool) (truth : bool) (s : bytes)
    (i : nat) (n : nat) : option nat :=
  match n with
  | O => None
  | S n' =>
    if (0 <? i)%nat then
      let '(r, size) :=
        match s !! (i - 1)%nat with
        | Some c => if utf8.RuneSelf <=? b2z c
                    then utf8.DecodeLastRune (take i s)
                    else (b2z c, 1%nat)
        | None => (utf8.RuneError, 1%nat)
        end in
      let i' := (i - size)%nat in
      if Bool.eqb (f r) truth then Some i'
      else lastIndexFunc f truth s i' n'
    else None
  end.

Definition TrimLeftFunc (s : bytes) (f : Z -> bool) : bytes :=
  match indexFunc f false s 0 (length s) with
  | None => []
  | Some i => drop i s
  end.

Definition TrimRightFunc (s : bytes) (f : Z -> bool) : bytes :=
  match lastIndexFunc f false s (length s) (length s) with
  | Some i =>
    match s !! i with
    | Some c => if utf8.RuneSelf <=? b2z c
                then take (i + snd (utf8.DecodeRune (drop i s))) s
                else take (S i) s
    | None => take (S i) s
    end
  | None => []
  end.

Definition TrimFunc (s : bytes) (f : Z -> bool) : bytes :=
  TrimRightFunc (TrimLeftFunc s f) f.

(** [bytes.ReplaceAll] for a non-empty [old]: the occurrences are found
    leftmost first and do not overlap. *)
Fixpoint replaceNonEmpty (n : nat) (s old new : bytes) : bytes :=
  match n with
  | O => s
  | S n' =>
    match s with
    | [] => []
    | c :: s' =>
      if HasPrefix s old then new ++ replaceNonEmpty n' (drop (length old) s) old new
      else c :: replaceNonEmpty n' s' old new
    end
  end.

(** [bytes.ReplaceAll] for an empty [old]: [new] goes before every rune and
    at the end. *)
Fixpoint replaceEmpty (n : nat) (s new : bytes) : bytes :=
  match n with
  | O => []
  | S n' =>
    match s with
    | [] => []
    | _ :: _ =>
      let wid := snd (utf8.DecodeRune s) in
      take wid s ++ new ++ replaceEmpty n' (drop wid s) new
    end
  end.

Definition ReplaceAll (s old new : bytes) : bytes :=
  match old with
  | [] => new ++ replaceEmpty (length s) s new
  | _ :: _ => replaceNonEmpty (length s) s old new
  end.

End gobytes.

(** ** internal/ghc *)

Module ghc.

Definition asciiSpace (c : byte) : bool :=
  beq c TAB || beq c LF || beq c VT || beq c FF || beq c CR || beq c SP.

(** [TrimLeftSpace]: the loop over [start] is the recursion on the rest of
    the slice, [s[start:]]. *)
Fixpoint TrimLeftSpace (s : bytes) : bytes :=
  match s with
  | [] => []
  | c :: s' =>
    if utf8.RuneSelf <=? b2z c then gobytes.TrimFunc s unicode.IsSpace
    else if asciiSpace c then TrimLeftSpace s'
    else s
  end.

(** Where the slice returned by [TrimLeftSpace] starts in its argument. *)
Fixpoint TrimLeftSpace_off (s : bytes) : nat :=
  match s with
  | [] => 0%nat
  | c :: s' =>
    if utf8.RuneSelf <=? b2z c
    then (length s - length (gobytes.TrimLeftFunc s unicode.IsSpace))%nat
    else if asciiSpace c then S (TrimLeftSpace_off s')
    else 0%nat
  end.

Inductive error := ErrSyntax | errIgnore | ErrNoParam | ErrOutOfRange | ErrJSON.

Inductive result (A : Type) := Ok (a : A) | Err (e : error).
Arguments Ok {A} a.
Arguments Err {A} e.

(** [unescape]: [append(s[:i+1], s[i+3:]...)] followed by [s[i] = c].  The
    slice that is returned is two bytes shorter. *)
Definition unescape (s : bytes) (i : nat) (c : byte) : bytes :=
  take i s ++ c :: drop (i + 3) s.

(** The [append] works in place: the bytes of the old slice that lie behind
    the new one, its last two, stay where they were in the backing array. *)
Definition unescape_left_behind (s : bytes) : bytes := drop (length s - 2) s.

(** The nested [switch] of [unescapeData] at index [i]; the guard
    [i < len(s)-2] is the presence of [s[i+2]]. *)
Definition escData (s : bytes) (i : nat) : option byte :=
  match s !! i, s !! (i + 1)%nat, s !! (i + 2)%nat with
  | Some p, Some a, Some b =>
    if beq p "%" then
      if beq a "0" then
        if beq b "A" || beq b "a" then Some LF
        else if beq b "D" || beq b "d" then Some CR
        else None
      else if beq a "2" then
        if beq b "5" then Some "%"%char else None
      else None
    else None
  | _, _, _ => None
  end.

(** The nested [switch] of [unescapeProperty]. *)
Definition escProperty (s : bytes) (i : nat) : option byte :=
  match s !! i, s !! (i + 1)%nat, s !! (i + 2)%nat with
  | Some p, Some a, Some b =>
    if beq p "%" then
      if beq a "0" then
        if beq b "A" || beq b "a" then Some LF
        else if beq b "D" || beq b "d" then Some CR
        else None
      else if beq a "2" then
        if beq b "5" then Some "%"%char
        else if beq b "C" || beq b "c" then Some ","%char
        else None
      else if beq a "3" then
        if beq b "A" || beq b "a" then Some ":"%char else None
      else None
    else None
  | _, _, _ => None
  end.

(** [for i := 0; i < len(s); i++]: [s] is the slice as rewritten so far and
    [behind] collects what the shrinking slice left behind in the array. *)
Fixpoint unescapeLoop (esc : bytes -> nat -> option byte) (n : nat)
    (s : bytes) (i : nat) (behind : bytes) : bytes * bytes :=
  match n with
  | O => (s, behind)
  | S n' =>
    if (i <? length s)%nat then
      match esc s i with
      | Some c =>
        unescapeLoop esc n' (unescape s i c) (S i) (unescape_left_behind s ++ behind)
      | None => unescapeLoop esc n' s (S i) behind
      end
    else (s, behind)
  end.

(** The slice returned by [unescapeData]. *)
Definition unescapeData (s : bytes) : bytes :=
  fst (unescapeLoop escData (length s) s 0 []).

(** The bytes of the argument's backing array after [unescapeData]. *)
Definition unescapeData_mem (s : bytes) : bytes :=
  let '(r, behind) := unescapeLoop escData (length s) s 0 [] in r ++ behind.

(** The slice returned by [unescapeProperty]; [None] is [nil]. *)
Definition unescapeProperty (s : bytes) : option bytes :=
  match s with
  | [] => None
  | _ :: _ => Some (fst (unescapeLoop escProperty (length s) s 0 []))
  end.

Definition unescapeProperty_mem (s : bytes) : bytes :=
  let '(r, behind) := unescapeLoop escProperty (length s) s 0 [] in r ++ behind.

(** The closures stored in [defs] by [String], [NaturalNum],
    [StringWithDefault] and [NaturalNumWithDefault]. *)
Inductive rule :=
| RString
| RNaturalNum
| RStringWithDefault (v : string)
| RNaturalNumWithDefault (v : Z).

Record GHCOptions := mkOptions {
  data : gmap string (list ascii);
  defs : gmap string rule
}.

Record GHC := mkGHC {
  Name : string;
  Data : list ascii;
  Opts : option GHCOptions
}.

Definition OmitData (g : GHC) : GHC := mkGHC (Name g) [] (Opts g).
Definition OmitOpts (g : GHC) : GHC := mkGHC (Name g) (Data g) None.
Definition NameOnly (g : GHC) : GHC := OmitOpts (OmitData g).

Definition isColon (o : option ascii) : bool :=
  match o with Some c => beq c ":" | None => false end.

(** While [PraseGHC] runs, a value of [opt] is a slice of the line: where it
    starts and how long it is.  Its bytes are read when the parsing is over,
    since a later unescape may still move bytes under it. *)
Definition readSlice (s : bytes) (sl : nat * nat) : list ascii :=
  sub s (fst sl) (fst sl + snd sl).

Definition readOpts (s : bytes) (opt : gmap string (nat * nat)) : GHCOptions :=
  mkOptions (readSlice s <$> opt) ∅.

Inductive props_result :=
| PSyntax (s : list ascii)
| PDone (s : list ascii) (opt : gmap string (nat * nat)) (d : list ascii)
| PEnd (s : list ascii) (opt : gmap string (nat * nat)).

(** [opt[key] = prop] when [prop != nil], with the array as the unescape
    leaves it. *)
Definition storeProp (s : bytes) (k j : nat) (key : string)
    (opt : gmap string (nat * nat)) : list ascii * gmap string (nat * nat) :=
  let raw := sub s k j in
  (take k s ++ unescapeProperty_mem raw ++ drop j s,
   match unescapeProperty raw with
   | Some prop => <[key := (k, length prop)]> opt
   | None => opt
   end).

(** The inner loop of [PraseGHC], over [j]. *)
Fixpoint propsLoop (n : nat) (s : bytes) (j k : nat) (val : bool)
    (key : string) (opt : gmap string (nat * nat)) : props_result :=
  match n with
  | O => PEnd s opt
  | S n' =>
    match s !! j with
    | None => PEnd s opt
    | Some c =>
      if beq c "=" then
        if val then PSyntax s
        else propsLoop n' s (S j) (S j) true (S_ (sub s k j)) opt
      else if beq c "," then
        if negb val then PSyntax s
        else let '(s1, opt1) := storeProp s k j key opt in
             propsLoop n' s1 (S j) (S j) false EmptyString opt1
      else if beq c ":" then
        if negb (isColon (s !! S j)) then PSyntax s
        else let '(s1, opt1) := if val then storeProp s k j key opt else (s, opt) in
             let msg := drop (j + 2) s1 in
             PDone (take (j + 2) s1 ++ unescapeData_mem msg) opt1 (unescapeData msg)
      else propsLoop n' s (S j) k val key opt
    end
  end.

(** The outer loop of [PraseGHC], over [i].  When the inner loop ends without
    reaching the data delimiter, the outer loop goes on from [i+1], on the
    bytes as they are by then. *)
Fixpoint nameLoop (n : nat) (s : bytes) (i : nat)
    (opt : gmap string (nat * nat)) : list ascii * result GHC :=
  match n with
  | O => (s, Err ErrSyntax)
  | S n' =>
    match s !! i with
    | None => (s, Err ErrSyntax)
    | Some c =>
      if beq c ":" then
        if negb (isColon (s !! S i)) then (s, Err ErrSyntax)
        else let msg := drop (i + 2) s in
             let s1 := take (i + 2) s ++ unescapeData_mem msg in
             (s1, Ok (mkGHC (S_ (sub s 2 i)) (unescapeData msg)
                            (Some (readOpts s1 opt))))
      else if beq c " " then
        match propsLoop (length s) s (S i) (S i) false EmptyString opt with
        | PSyntax s1 => (s1, Err ErrSyntax)
        | PDone s1 opt1 d =>
          (s1, Ok (mkGHC (S_ (sub s 2 i)) d (Some (readOpts s1 opt1))))
        | PEnd s1 opt1 => nameLoop n' s1 (S i) opt1
        end
      else nameLoop n' s (S i) opt
    end
  end.

(** [PraseGHC] on the slice that [TrimLeftSpace] returned: the bytes of that
    slice after the call, and the result. *)
Definition parse (s : bytes) : list ascii * result GHC :=
  if (length s <=? 4)%nat || negb (isColon (s !! 0%nat)) || negb (isColon (s !! 1%nat))
  then (s, Err ErrSyntax)
  else nameLoop (length s) s 2 ∅.

(** [PraseGHC]: the caller's line as the call leaves it, and the result. *)
Definition PraseGHC (line : bytes) : list ascii * result GHC :=
  let s := TrimLeftSpace line in
  let off := TrimLeftSpace_off line in
  let '(s', r) := parse s in
  (take off line ++ s' ++ drop (off + length s) line, r).

(** *** Option coercion *)

Inductive any := VString (s : string) | VInt (z : Z).

Definition stringOption (s : option (list ascii)) : result any :=
  match s with
  | None => Err ErrNoParam
  | Some b => Ok (VString (S_ b))
  end.

(** [json.Unmarshal(s, &num)] for [num int64], as [encoding/json] defines it:
    white space around the value is skipped, [null] leaves [num] at 0, an
    integer literal in the range of [int64] is stored, and anything else (bad
    syntax, a leading zero, a fraction or an exponent, any other JSON value)
    is an error. *)
Definition jsonSpace (c : byte) : bool :=
  beq c SP || beq c TAB || beq c LF || beq c CR.

Fixpoint dropSpace (s : bytes) : bytes :=
  match s with
  | c :: s' => if jsonSpace c then dropSpace s' else s
  | [] => []
  end.

Definition isDigit (c : byte) : bool := (48 <=? b2z c) && (b2z c <=? 57).

Fixpoint digitsValue (acc : Z) (s : bytes) : option Z :=
  match s with
  | [] => Some acc
  | c :: s' => if isDigit c then digitsValue (10 * acc + (b2z c - 48)) s' else None
  end.

Definition naturalLiteral (s : bytes) : option Z :=
  match s with
  | [] => None
  | c :: s' =>
    if beq c "0" then match s' with [] => Some 0 | _ :: _ => None end
    else digitsValue 0 s
  end.

Definition jsonInt64 (s : bytes) : option Z :=
  let t := rev (dropSpace (rev (dropSpace s))) in
  if String.eqb (S_ t) "null" then Some 0
  else
    let v := match t with
             | c :: t' => if beq c "-" then Z.opp <$> naturalLiteral t'
                          else naturalLiteral t
             | [] => None
             end in
    match v with
    | Some z => if (- 2 ^ 63 <=? z) && (z <? 2 ^ 63) then Some z else None
    | None => None
    end.

Definition naturalNumOption (s : option (list ascii)) : result any :=
  match s with
  | None => Err ErrNoParam
  | Some b =>
    match jsonInt64 b with
    | None => Err ErrJSON
    | Some num => if num <? 1 then Err ErrOutOfRange else Ok (VInt num)
    end
  end.

(** Calling the closure that a declaration stored in [defs]. *)
Definition into (r : rule) (s : option (list ascii)) : result any :=
  match r, s with
  | RString, None => Err errIgnore
  | RString, Some _ => stringOption s
  | RNaturalNum, None => Err errIgnore
  | RNaturalNum, Some _ => naturalNumOption s
  | RStringWithDefault v, None => Ok (VString v)
  | RStringWithDefault _, Some _ => stringOption s
  | RNaturalNumWithDefault v, None => Ok (VInt v)
  | RNaturalNumWithDefault _, Some _ => naturalNumOption s
  end.

Definition declare (p : string) (r : rule) (o : GHCOptions) : GHCOptions :=
  mkOptions (data o) (<[p := r]> (defs o)).

(** The loop of [Map] over the declarations in the order [ps]. *)
Fixpoint MapLoop (ps : list (string * rule)) (d : gmap string (list ascii))
    (out : gmap string any) : result (gmap string any) :=
  match ps with
  | [] => Ok out
  | (p, r) :: ps' =>
    match into r (d !! p) with
    | Ok v => MapLoop ps' d (<[p := v]> out)
    | Err errIgnore => MapLoop ps' d out
    | Err e => Err e
    end
  end.

(** [Map]: Go leaves the order of [range o.defs] open; here it is the order
    of [map_to_list]. *)
Definition Map (o : GHCOptions) : result (gmap string any) :=
  MapLoop (map_to_list (defs o)) (data o) ∅.

(** What one declaration contributes to the result of [Map], and whether it
    makes [Map] fail. *)
Definition keeps (d : gmap string (list ascii)) (pr : string * rule)
    : option (string * any) :=
  match into (snd pr) (d !! fst pr) with
  | Ok v => Some (fst pr, v)
  | Err _ => None
  end.

Definition fails (d : gmap string (list ascii)) (pr : string * rule) : bool :=
  match into (snd pr) (d !! fst pr) with
  | Ok _ => false
  | Err errIgnore => false
  | Err _ => true
  end.



End ghc.

(** [strconv.Itoa] *)
Definition Itoa (z : Z) : string := NilZero.string_of_int (Z.to_int z).


(** Go's [int] is 64 bits wide on the targets this is built for. *)
Definition wrap64 (z : Z) : Z := (z + 2 ^ 63) mod 2 ^ 64 - 2 ^ 63.

(** ** internal/sdb *)

Module sdb.

Record rpcError := mkRpcError { Code : Z; Message : string }.

(** [Result] is the undecoded CBOR payload. *)
Record rpcResponse := mkResponse {
  Id : Z;
  Error : option rpcError;
  Result : option (list ascii)
}.

(** [serial.next] *)
Definition next (cntr : Z) : Z :=
  let c := wrap64 (cntr + 1) in
  if c <? 0 then 1 else c.

(** The fields of [SDB] that [rpc] and [listen] use.  [closing] says that
    [CloseChan] has been closed; a channel of [respChans] is its key, since
    nothing but its being registered is observed here. *)
Record SDB := mkSDB {
  id : Z;
  closing : bool;
  CloseErr : option string;
  respChans : gmap Z unit
}.

Definition setChan (i : Z) (s : SDB) : SDB + string :=
  match respChans s !! i with
  | Some _ => inr ("rpc request id " ++ Itoa i ++ " is in use")%string
  | None => inl (mkSDB (id s) (closing s) (CloseErr s) (<[i := tt]> (respChans s)))
  end.


Definition delChan (i : Z) (s : SDB) : SDB :=
  mkSDB (id s) (closing s) (CloseErr s) (delete i (respChans s)).

(** How the final [select] of [rpc] ends: the timer fires, a response is
    received on the call's channel, or the channel is found closed. *)
Inductive waited :=
| TimedOut
| Received (resp : rpcResponse)
| Closed.

(** What [rpc] returns: the payload, or the error (its text; [None] is the
    [nil] error that an unset [CloseErr] gives). *)
Inductive outcome :=
| Payload (r : option (list ascii))
| Failed (msg : option string).

Definition answer (method : string) (i : Z) (w : waited) : outcome :=
  match w with
  | TimedOut => Failed (Some ("'" ++ method ++ "' rpc timed out after 5 secconds")%string)
  | Closed =>
    Failed (Some ("'" ++ method ++ "' rpc channel(" ++ Itoa i ++ ") is closed")%string)
  | Received resp =>
    match Error resp with
    | Some e =>
      Failed (Some ("'" ++ method ++ "' rpc (" ++ Itoa i ++ ") is failed ("
                    ++ Itoa (Code e) ++ "): " ++ Message e)%string)
    | None => Payload (Result resp)
    end
  end.

(** [rpc]: [wr] is the error of [s.write], if any, and [w] the end of the
    [select].  The deferred [delChan] runs on every return that follows the
    registration. *)
Definition rpc (s : SDB) (method : string) (wr : option string) (w : waited)
    : SDB * outcome :=
  if closing s then (s, Failed (CloseErr s))
  else
    let i := next (id s) in
    let s1 := mkSDB i (closing s) (CloseErr s) (respChans s) in
    match setChan i s1 with
    | inr e => (s1, Failed (Some e))
    | inl s2 =>
      match wr with
      | Some e => (delChan i s2, Failed (Some e))
      | None => (delChan i s2, answer method i w)
      end
    end.



(** [Datetime] on a clock reading in nanoseconds: the content of tag 12. *)
Definition Datetime (t : Z) : Z * Z := (t / 1000000000, t mod 1000000000).

End sdb.

(** ** main.go *)

Module main.

Import ghc.

Record line := mkLine {
  kind : Z;
  time : Z;
  size : Z;
  text : string;
  data : string;
  opts : gmap string any
}.

Definition len (s : bytes) : Z := Z.of_nat (length s).

(** [newLine]; [now] is the reading of [time.Now()]. *)
Definition newLine (now : Z) (fd1 : bool) (size : Z) (text : string) : line :=
  mkLine (if fd1 then 1 else 2) now size text EmptyString ∅.

(** [newCommand]; [None] is the error return. *)
Definition newCommand (now : Z) (size : Z) (c : GHC) : option line :=
  let o :=
    match Opts c with
    | None => Ok ∅
    | Some os => Map os
    end in
  match o with
  | Ok m => Some (mkLine (-1) now size (Name c) (S_ (Data c)) m)
  | Err _ => None
  end.

Definition masking : list ascii := B "***".

Definition mask (s : bytes) (masks : list (list ascii)) : list ascii :=
  fold_left (fun s m => gobytes.ReplaceAll s m masking) masks s.

(** The variables of [streamReader] that live across iterations.  In Go a
    mask is the slice [c.Data], which lies in the scanner's buffer; it keeps
    the bytes of its [add-mask] line for as long as the scanner neither moves
    nor refills that part of the buffer.  Here a mask is those bytes. *)
Record reader := mkReader {
  masks : list (list ascii);
  enable : bool;
  endtoken : string
}.

Definition reader0 : reader := mkReader [] true EmptyString.

Definition withData (c : GHC) (d : list ascii) : GHC := mkGHC (Name c) d (Opts c).

Definition withOpts (c : GHC) (f : GHCOptions -> GHCOptions) : GHC :=
  mkGHC (Name c) (Data c) (f <$> Opts c).

Definition annotationOpts (o : GHCOptions) : GHCOptions :=
  declare "endLine" (RNaturalNumWithDefault 1)
    (declare "line" (RNaturalNumWithDefault 1)
      (declare "endColumn" RNaturalNum
        (declare "col" RNaturalNum
          (declare "file" (RStringWithDefault ".github")
            (declare "title" RString o))))).

(** One iteration of the [for scanner.Scan()] loop of [streamReader] on the
    scanned line [s]: the variables afterwards and what was sent on the
    channel. *)
Definition body (fd1 : bool) (now : Z) (st : reader) (s : bytes)
    : reader * list line :=
  let plain (s1 : bytes) :=
    let s2 := mask s1 (masks st) in
    (st, [newLine now fd1 (len s2) (S_ s2)]) in
  let send (s1 : bytes) (c : GHC) :=
    match newCommand now (len s) c with
    | Some cc => (st, [cc])
    | None => plain s1
    end in
  if fd1 && enable st then
    match PraseGHC s with
    | (s1, Ok c) =>
      let name := Name c in
      if String.eqb name "debug" then
        send s1 (withData (OmitOpts c) (mask (Data c) (masks st)))
      else if String.eqb name "notice" || String.eqb name "warning"
              || String.eqb name "error" then
        send s1 (withOpts (withData c (mask (Data c) (masks st))) annotationOpts)
      else if String.eqb name "group" then
        send s1 (OmitOpts (withData c (mask (Data c) (masks st))))
      else if String.eqb name "endgroup" then
        send s1 (NameOnly c)
      else if String.eqb name "add-mask" then
        if (0 <? len (Data c)) && (0 <? len (TrimLeftSpace (Data c)))
        then (mkReader (masks st ++ [Data c]) (enable st) (endtoken st), [])
        else plain s1
      else if String.eqb name "stop-commands" then
        if negb (enable st)
        then (mkReader (masks st) false (S_ (Data c)), [])
        else plain s1
      else
        if negb (enable st) && String.eqb name (endtoken st)
        then (mkReader (masks st) true EmptyString, [])
        else plain s1
    | (s1, Err _) => plain s1
    end
  else plain s.

(** [streamReader] on the lines that the scanner yields, each with the clock
    reading of its iteration. *)
Fixpoint run (fd1 : bool) (st : reader) (ls : list (Z * list ascii))
    : reader * list line :=
  match ls with
  | [] => (st, [])
  | (now, s) :: ls' =>
    let '(st1, out1) := body fd1 now st s in
    let '(st2, out2) := run fd1 st1 ls' in
    (st2, out1 ++ out2)
  end.

Definition streamReader (fd1 : bool) (ls : list (Z * list ascii)) : list line :=
  snd (run fd1 reader0 ls).

(** The plain event that [streamReader] sends for the bytes [s1]. *)
Definition plainEvent (fd1 : bool) (now : Z) (st : reader) (s1 : list ascii) : line :=
  let s2 := mask s1 (masks st) in newLine now fd1 (len s2) (S_ s2).




(** *** The sender *)

(** [Data_] and [Opts_] are the fields [Data] and [Opts] of [cborLine]. *)
Record cborLine := mkCborLine {
  Kind : Z;
  Time : Z * Z;
  Text : string;
  Data_ : string;
  Opts_ : gmap string any
}.

Definition toCborLine (l : line) : cborLine :=
  mkCborLine (kind l) (sdb.Datetime (time l)) (text l) (data l) (opts l).

(** [timer] says whether [s.timer] is non-nil. *)
Record sender := mkSender {
  buf : list cborLine;
  bufSize : Z;
  timer : bool
}.

Definition newSender : sender := mkSender [] 0 false.

(** What a call does besides changing the sender: the query it issues and
    what it logs. *)
Inductive effect :=
| Query (batch : list cborLine)
| LogWarn (msg : string)
| LogDebug (msg : string).

(** [flush]; [err] is the error that [s.db.Query] returns, if any. *)
Definition flush (err : option string) (s : sender) : sender * list effect :=
  let l := length (buf s) in
  if (l =? 0)%nat then (s, [])
  else
    (mkSender [] 0 false,
     [Query (buf s);
      match err with
      | Some e => LogWarn e
      | None => LogDebug ("insert " ++ Itoa (Z.of_nat l) ++ " line(s)")%string
      end]).

(** [write]; [mbs] is [s.opt.mbs], [None] a nil line. *)
Definition write (mbs : Z) (l : option line) (err : option string) (s : sender)
    : sender * list effect :=
  match l with
  | None => (s, [])
  | Some l =>
    let s1 := mkSender (buf s ++ [toCborLine l])
                       ((bufSize s + size l mod 2 ^ 64) mod 2 ^ 64) true in
    if mbs <=? bufSize s1 then flush err s1 else (s1, [])
  end.

(** The calls that reach a sender: [write] from the consumer, [flush] from the
    timer's callback or at the end of [runCmd]. *)
Inductive call :=
| CWrite (l : option line) (err : option string)
| CFlush (err : option string).

Definition step (mbs : Z) (s : sender) (c : call) : sender :=
  match c with
  | CWrite l err => fst (write mbs l err s)
  | CFlush err => fst (flush err s)
  end.

Definition after (mbs : Z) (cs : list call) : sender :=
  fold_left (step mbs) cs newSender.

(** The lines handed to [write] by a sequence of calls. *)
Definition written (cs : list call) : list line :=
  flat_map (fun c => match c with CWrite (Some l) _ => [l] | _ => [] end) cs.

(** The sum of the sizes of lines. *)
Definition total (ls : list line) : Z := foldr (fun l acc => size l + acc) 0 ls.

(** What holds of the buffer after the calls [cs]: it holds the last lines
    written, and its total is their sizes' sum, below the threshold [mbs]. *)
Definition accounted (mbs : Z) (cs : list call) (s : sender) : Prop :=
  exists ls : list line,
    ls `suffix_of` written cs
    /\ buf s = toCborLine <$> ls
    /\ bufSize s = total ls
    /\ 0 <= bufSize s
    /\ (bufSize s < mbs \/ ls = []).

(** *** The splitter *)

(** The [for] loop of [splitFunc]: [Some (advance, token)] when it returns
    from inside the loop. *)
Fixpoint splitLoop (n : nat) (data : bytes) (i : nat) : option (nat * list ascii) :=
  match n with
  | O => None
  | S n' =>
    match data !! i with
    | None => None
    | Some c =>
      if beq c LF then
        if (0 <? i)%nat && bool_decide (data !! (i - 1)%nat = Some CR)
        then Some (S i, take (i - 1) data)
        else Some (S i, take i data)
      else if beq c CR then
        if (S i =? length data)%nat || negb (bool_decide (data !! S i = Some LF))
        then Some (S i, take i data)
        else splitLoop n' data (S i)
      else splitLoop n' data (S i)
    end
  end.

(** [splitFunc]: [None] is the return [0, nil, nil] that asks for more data. *)
Definition splitFunc (data : bytes) (atEOF : bool) : option (nat * list ascii) :=
  if atEOF && (length data =? 0)%nat then None
  else
    match splitLoop (length data) data 0 with
    | Some r => Some r
    | None => if atEOF then Some (length data, data) else None
    end.

(** [bufio.Scanner] on [splitFunc], as far as the lines go: the split
    function is called on the unread bytes until it asks for more.  The limit
    of 65536 bytes that [streamReader] sets for the buffer is not part of
    this: in Go a line that does not fit ends the scan with an error. *)
Fixpoint tokens (n : nat) (data : bytes) (atEOF : bool)
    : list (list ascii) * list ascii :=
  match n with
  | O => ([], data)
  | S n' =>
    match splitFunc data atEOF with
    | None => ([], data)
    | Some (advance, token) =>
      let '(ts, rest) := tokens n' (drop advance data) atEOF in
      (token :: ts, rest)
    end
  end.

(** Each of [chunks] is what one read adds to the unread bytes; after the
    last one the end of input is seen. *)
Fixpoint scanFrom (pending : bytes) (chunks : list (list ascii)) : list (list ascii) :=
  match chunks with
  | [] => fst (tokens (S (length pending)) pending true)
  | c :: chunks' =>
    let d := pending ++ c in
    let '(ts, rest) := tokens (S (length d)) d false in
    ts ++ scanFrom rest chunks'
  end.

Definition scan (chunks : list (list ascii)) : list (list ascii) := scanFrom [] chunks.

End main.

(** U+3000, the ideographic space, in UTF-8. *)
Definition ideographicSpace : list ascii := ["227"; "128"; "128"]%char.

(** ** The specification's reading of the decoders and of the splitter *)

Module spec.

Definition lower (c : byte) : byte :=
  if (65 <=? b2z c) && (b2z c <=? 90) then ascii_of_N (N_of_ascii c + 32) else c.

(** An escape is [%] and two hex digits; the letter is matched in either case. *)
Definition sameHex (x h : byte) : bool := beq x h || beq x (lower h).

Definition dataEscapes : list (ascii * ascii * ascii) :=
  [("0", "A", LF); ("0", "D", CR); ("2", "5", "%")]%char.

Definition propertyEscapes : list (ascii * ascii * ascii) :=
  dataEscapes ++ [("2", "C", ","); ("3", "A", ":")]%char.

Fixpoint escapeOf (tbl : list (ascii * ascii * ascii)) (a b : byte) : option ascii :=
  match tbl with
  | [] => None
  | (h1, h2, c) :: tbl' =>
    if beq a h1 && sameHex b h2 then Some c else escapeOf tbl' a b
  end.

(** What the switch of an unescape loop finds at the head of [l]. *)
Definition headEscape (tbl : list (ascii * ascii * ascii)) (l : bytes) : option ascii :=
  match l with
  | p :: a :: b :: _ => if beq p "%" then escapeOf tbl a b else None
  | _ => None
  end.

(** One pass from the left: an escape of the table becomes its byte, any
    other byte stays. *)
Fixpoint decode (tbl : list (ascii * ascii * ascii)) (s : bytes) : list ascii :=
  match s with
  | [] => []
  | p :: t =>
    match t with
    | a :: b :: rest =>
      match (if beq p "%" then escapeOf tbl a b else None) with
      | Some c => c :: decode tbl rest
      | None => p :: decode tbl t
      end
    | _ => p :: decode tbl t
    end
  end.

(** Lines of a complete input: LF, CRLF and a CR that no LF follows each end
    a line; bytes after the last terminator form a last line. *)
Fixpoint linesFrom (cur : bytes) (s : bytes) : list (list ascii) :=
  match s with
  | [] => match cur with [] => [] | _ :: _ => [cur] end
  | c :: s' =>
    if beq c LF then cur :: linesFrom [] s'
    else if beq c CR then
      match s' with
      | c1 :: s'' => if beq c1 LF then cur :: linesFrom [] s''
                     else cur :: linesFrom [] s'
      | [] => [cur]
      end
    else linesFrom (cur ++ [c]) s'
  end.

Definition lines (input : bytes) : list (list ascii) := linesFrom [] input.

(** No terminator byte. *)
Definition unbroken (s : list ascii) : Prop :=
  Forall (fun c => c <> LF /\ c <> CR) s.


(** The bytes [more] may follow [d]: a CR at the end of [d] is not the first
    half of a CRLF. *)
Definition mayFollow (d more : list ascii) : Prop :=
  last d = Some CR -> head more <> Some LF.

End spec.

(** ** The sender's calls with what they issue *)

Module batching.

Import main.

(** A call on the sender with its effects. *)
Definition stepE (mbs : Z) (s : sender) (c : call) : sender * list effect :=
  match c with
  | CWrite l err => write mbs l err s
  | CFlush err => flush err s
  end.

(** The calls [cs] one after the other. *)
Fixpoint runCalls (mbs : Z) (s : sender) (cs : list call) : sender * list effect :=
  match cs with
  | [] => (s, [])
  | c :: cs' =>
    let '(s1, e1) := stepE mbs s c in
    let '(s2, e2) := runCalls mbs s1 cs' in
    (s2, e1 ++ e2)
  end.

(** The batches handed to [s.db.Query], in order. *)
Definition batches (es : list effect) : list (list cborLine) :=
  flat_map (fun e => match e with Query b => [b] | _ => [] end) es.

End batching.

(** ** Bytes of lines and of terminators *)



(** The three terminators. *)
Definition terminator (term : list ascii) : Prop :=
  term = [LF] \/ term = [CR] \/ term = [CR; LF].

(** The bytes of the line in a result of the inner loop of [PraseGHC]. *)
Definition arrayOf (r : ghc.props_result) : list ascii :=
  match r with
  | ghc.PSyntax s => s
  | ghc.PDone s _ _ => s
  | ghc.PEnd s _ => s
  end.

(** A byte that ends the name of a command. *)
Definition endsName (c : byte) : bool := beq c ":" || beq c " ".

(** A byte that the inner loop of [PraseGHC] acts on. *)
Definition endsProperty (c : byte) : bool := beq c "=" || beq c "," || beq c ":".

(** [m] occurs in [s]. *)
Definition occurs (m s : list ascii) : Prop :=
  exists pre post, s = pre ++ m ++ post.

(** No byte of [m] is the one the marker is made of. *)
Definition starFree (m : list ascii) : Prop :=
  Forall (fun c => c <> "*"%char) m.

(** ** internal/sdb: calls in sequence, and quoting *)

Module calls.
Import sdb.

(** One call of [rpc]: its method, the error of its [write] if any, and how
    its wait ends. *)
Record call := mkCall { method : string; wr : option string; end_ : waited }.

(** Calls made one after the other on the same connection, as [Signin],
    [Query] and [Use] make them. *)
Fixpoint run (s : SDB) (cs : list call) : SDB * list outcome :=
  match cs with
  | [] => (s, [])
  | c :: cs' =>
    let '(s1, o) := rpc s (method c) (wr c) (end_ c) in
    let '(s2, os) := run s1 cs' in
    (s2, o :: os)
  end.

(** What a call returns once it is registered under [i]. *)
Definition registered (i : Z) (c : call) : outcome :=
  match wr c with
  | Some e => Failed (Some e)
  | None => answer (method c) i (end_ c)
  end.

(** The outcomes of calls registered under the ids [i+1], [i+2], ... *)
Fixpoint numbered (i : Z) (cs : list call) : list outcome :=
  match cs with
  | [] => []
  | c :: cs' => registered (i + 1) c :: numbered (i + 1) cs'
  end.

End calls.

Module quote.

Definition bracketL : bytes :=
  [ascii_of_nat 226; ascii_of_nat 159; ascii_of_nat 168].
Definition bracketR : bytes :=
  [ascii_of_nat 226; ascii_of_nat 159; ascii_of_nat 169].
Definition bracketEsc : bytes := "\"%char :: bracketR.
Definition underscore : Z := 95.
Definition backtick : bytes := ["`"%char].
Definition backtickEsc : bytes := ["\"%char; "`"%char].

Definition isAsciiDigit (code : Z) : bool := (48 <=? code) && (code <=? 57).

Definition isAsciiAlpha (code : Z) : bool :=
  ((65 <=? code) && (code <=? 90)) || ((97 <=? code) && (code <=? 122)).

Definition isAsciiAlphaNumeric (code : Z) : bool :=
  isAsciiDigit code || isAsciiAlpha code.

(** [strings.ReplaceAll] on the bytes of the strings. *)
Definition escape (str left right escaped : bytes) : bytes :=
  left ++ gobytes.ReplaceAll str right escaped ++ right.

(** The loop of [escapeStartsNumeric] from index [i]. *)
Fixpoint escapeStartsNumericFrom (n : nat) (str left right escaped : bytes)
    (i : nat) : bytes :=
  match n with
  | O => str
  | S n' =>
    match str !! i with
    | None => str
    | Some c =>
      let code := b2z c in
      if (i <=? 0)%nat && isAsciiDigit code then escape str left right escaped
      else if negb (isAsciiAlphaNumeric code || (code =? underscore))
      then escape str left right escaped
      else escapeStartsNumericFrom n' str left right escaped (S i)
    end
  end.

Definition escapeStartsNumeric (str left right escaped : bytes) : bytes :=
  escapeStartsNumericFrom (length str) str left right escaped 0.

(** The loop of [escapeFullNumeric] from index [i]. *)
Fixpoint escapeFullNumericFrom (n : nat) (str left right escaped : bytes)
    (i : nat) (numeric : bool) : bytes :=
  let after := if numeric then escape str left right escaped else str in
  match n with
  | O => after
  | S n' =>
    match str !! i with
    | None => after
    | Some c =>
      let code := b2z c in
      if negb (isAsciiAlphaNumeric code || (code =? underscore))
      then escape str left right escaped
      else
        let numeric' := if numeric && negb (isAsciiDigit code) then false
                        else numeric in
        escapeFullNumericFrom n' str left right escaped (S i) numeric'
    end
  end.

Definition escapeFullNumeric (str left right escaped : bytes) : bytes :=
  escapeFullNumericFrom (length str) str left right escaped 0 true.

Definition QuoteRid (rid : bytes) : bytes :=
  match rid with
  | [] => bracketL ++ bracketR
  | _ :: _ => escapeFullNumeric rid bracketL bracketR bracketEsc
  end.

Definition QuoteIdent (ident : bytes) : bytes :=
  match ident with
  | [] => backtick ++ backtick
  | _ :: _ => escapeStartsNumeric ident backtick backtick backtickEsc
  end.

End quote.

(** A byte of an identifier that needs no quoting: an ASCII letter, a digit
    or the underscore. *)
Definition wordByte (c : byte) : bool :=
  quote.isAsciiAlphaNumeric (b2z c) || (b2z c =? quote.underscore).

Definition digitByte (c : byte) : bool := quote.isAsciiDigit (b2z c).

(** An identifier that [QuoteIdent] leaves bare. *)
Definition bareIdent (s : bytes) : bool :=
  match s with
  | [] => false
  | c :: _ => negb (digitByte c) && forallb wordByte s
  end.

(** A record id that [QuoteRid] leaves bare. *)
Definition bareRid (s : bytes) : bool :=
  forallb wordByte s && negb (forallb digitByte s).

(** The first byte, if there is one, is not a digit. *)
Definition headOK (str : bytes) : bool :=
  match str with [] => true | c :: _ => negb (digitByte c) end.

(** Every backtick of [s] comes right after a backslash. *)
Fixpoint backticksEscaped (prev : byte) (s : bytes) : bool :=
  match s with
  | [] => true
  | c :: s' => (negb (beq c "`") || beq prev "\") && backticksEscaped c s'
  end.

(** * Properties *)

(** ** Trimming *)

Section Trimming.
Import ghc.

Lemma TrimRightFunc_prefix (s : list ascii) f :
  gobytes.TrimRightFunc s f `prefix_of` s.
Proof.
  unfold gobytes.TrimRightFunc.
  destruct (gobytes.lastIndexFunc _ _ _ _ _) as [i|]; [|apply prefix_nil].
  destruct (s !! i) as [c|]; [destruct (_ <=? _)|]; apply prefix_take.
Qed.

(** The slice that [TrimLeftSpace] returns lies in its argument at
    [TrimLeftSpace_off]. *)
Lemma TrimLeftSpace_at (s : list ascii) :
  TrimLeftSpace s `prefix_of` drop (TrimLeftSpace_off s) s.
Proof.
  induction s as [|c s IH]; [apply prefix_nil|].
  cbn [TrimLeftSpace TrimLeftSpace_off].
  destruct (utf8.RuneSelf <=? b2z c).
  - unfold gobytes.TrimFunc.
    etrans; [apply TrimRightFunc_prefix|].
    unfold gobytes.TrimLeftFunc.
    destruct (gobytes.indexFunc _ _ _ _ _) as [i|].
    + rewrite length_drop.
      destruct (decide (i <= length (c :: s))%nat) as [Hi|Hi].
      * replace (length (c :: s) - (length (c :: s) - i))%nat with i by lia. done.
      * rewrite (drop_ge _ i) by lia. apply prefix_nil.
    + apply prefix_nil.
  - destruct (asciiSpace c); [exact IH | done].
Qed.

Lemma TrimLeftSpace_region (s : list ascii) :
  take (TrimLeftSpace_off s) s ++ TrimLeftSpace s
    ++ drop (TrimLeftSpace_off s + length (TrimLeftSpace s)) s = s.
Proof.
  destruct (TrimLeftSpace_at s) as [post Hpost].
  rewrite <- drop_drop, Hpost, drop_app_length, <- Hpost.
  apply take_drop.
Qed.

(** A line whose first byte that is not ASCII white space is an ASCII byte
    only loses bytes at its start. *)
Lemma TrimLeftSpace_ascii_suffix (s : list ascii) :
  Forall (fun c => b2z c < utf8.RuneSelf) s -> TrimLeftSpace s `suffix_of` s.
Proof.
  induction 1 as [|c s Hc _ IH]; [done|].
  cbn [TrimLeftSpace].
  destruct (Z.leb_spec utf8.RuneSelf (b2z c)); [lia|].
  destruct (asciiSpace c); [by apply suffix_cons_r | done].
Qed.

End Trimming.

(** ** The parser on short lines *)

Section Parser.
Import ghc main.

Lemma parse_short (s : list ascii) :
  (length s <= 4)%nat -> parse s = (s, Err ErrSyntax).
Proof.
  intros H. unfold parse.
  destruct (Nat.leb_spec (length s) 4); [done | lia].
Qed.

Lemma PraseGHC_short (line : list ascii) :
  (length (TrimLeftSpace line) <= 4)%nat ->
  PraseGHC line = (line, Err ErrSyntax).
Proof.
  intros H. unfold PraseGHC. rewrite (parse_short _ H).
  by rewrite TrimLeftSpace_region.
Qed.

(** C10. A line whose trimmed form has at most 4 bytes is rejected by
    [PraseGHC] with the syntax error, and [streamReader] sends it as a plain
    line in every state of the reader, on either stream. *)
Theorem C10_short_line_is_plain_text (line : list ascii)
    (Hshort : (length (TrimLeftSpace line) <= 4)%nat) :
  snd (PraseGHC line) = Err ErrSyntax
  /\ forall fd1 now st,
       body fd1 now st line = (st, [plainEvent fd1 now st line]).
Proof.
  split.
  - by rewrite PraseGHC_short.
  - intros fd1 now st. unfold body.
    rewrite (PraseGHC_short _ Hshort).
    by destruct (fd1 && enable st).
Qed.

(** The line [::::] is an instance. *)
Lemma C10_four_colons :
  (length (TrimLeftSpace (B "::::")) <= 4)%nat
  /\ snd (PraseGHC (B "::::")) = Err ErrSyntax
  /\ forall fd1 now st,
       body fd1 now st (B "::::") = (st, [plainEvent fd1 now st (B "::::")]).
Proof.
  assert (H : (length (TrimLeftSpace (B "::::")) <= 4)%nat) by (vm_compute; lia).
  split; [exact H|]. exact (C10_short_line_is_plain_text (B "::::") H).
Defined.

End Parser.

(** ** Single lines through [streamReader] *)

Section Lines.
Import ghc main.

(** C9. On the line U+3000 [::debug::hi] SP the trimming also removes the
    space at the end: what is left is not a suffix of the line, and the
    command's data loses its last byte. *)
Theorem C9_trailing_space_trimmed :
  let line := ideographicSpace ++ B "::debug::hi " in
  TrimLeftSpace line = B "::debug::hi"
  /\ ~ TrimLeftSpace line `suffix_of` line
  /\ snd (PraseGHC line)
     = Ok (mkGHC "debug" (B "hi") (Some (mkOptions ∅ ∅))).
Proof.
  cbv zeta.
  assert (E : TrimLeftSpace (ideographicSpace ++ B "::debug::hi ") = B "::debug::hi")
    by (vm_compute; reflexivity).
  split; [exact E|]. split.
  - rewrite E. intros [pre Hpre].
    apply (f_equal last) in Hpre. rewrite (last_app pre) in Hpre.
    vm_compute in Hpre. discriminate.
  - vm_compute. reflexivity.
Qed.

(** C8, as the specification has it, fails: the line [::add-mask::] with two
    spaces as data parses as an [add-mask] command whose data is empty after
    trimming, and an event is sent for it. *)
Lemma C8_blank_mask_is_sent :
  let s := B "::add-mask::  " in
  snd (PraseGHC s) = Ok (mkGHC "add-mask" (B "  ") (Some (mkOptions ∅ ∅)))
  /\ TrimLeftSpace (B "  ") = []
  /\ body true 0 reader0 s = (reader0, [newLine 0 true 14 "::add-mask::  "])
  /\ ~ (snd (body true 0 reader0 s) = []).
Proof.
  cbv zeta. repeat split; try (vm_compute; reflexivity).
  vm_compute. discriminate.
Qed.

(** C8, amended. An [add-mask] command whose data is empty after trimming
    registers no mask, and the line is sent as a plain line of the primary
    stream: its bytes as the parser left them, masked with the tokens
    registered so far. *)
Theorem C8_blank_mask_passes_as_plain (now : Z) (st : reader)
    (s s1 : list ascii) (c : GHC)
    (Hon : enable st = true)
    (Hparse : PraseGHC s = (s1, Ok c))
    (Hname : Name c = "add-mask")
    (Hblank : TrimLeftSpace (Data c) = []) :
  body true now st s = (st, [plainEvent true now st s1]).
Proof.
  unfold body. rewrite Hon, Hparse, Hname, Hblank. cbn.
  by rewrite andb_false_r.
Qed.

(** An instance: the data [%0A] is a line feed, which the trimming removes;
    the line is sent with the escape unescaped in place and [mask] masked. *)
Lemma C8_blank_mask_witness :
  body true 7 (mkReader [B "mask"] true "") (B "::add-mask::%0A")
  = (mkReader [B "mask"] true "",
     [newLine 7 true 14 (S_ (B "::add-***::" ++ [LF] ++ B "0A"))]).
Proof.
  etrans.
  - apply (C8_blank_mask_passes_as_plain 7 (mkReader [B "mask"] true "")
             (B "::add-mask::%0A") (B "::add-mask::" ++ [LF] ++ B "0A")
             (mkGHC "add-mask" [LF] (Some (mkOptions ∅ ∅))));
      vm_compute; reflexivity.
  - vm_compute. reflexivity.
Defined.

(** C5. With the gate open and no mask registered, the line
    [::error file=foo.yml,line=10::Wrong] is sent as one command event named
    [error] with data [Wrong] and the size of the line, whose properties are
    exactly [file], [line] and [endLine]. *)
Theorem C5_error_annotation (now : Z) :
  let opts := ({[ "file" := VString "foo.yml" ]} : gmap string any) in
  let opts := <[ "line" := VInt 10 ]> opts in
  let opts := <[ "endLine" := VInt 1 ]> opts in
  body true now reader0 (B "::error file=foo.yml,line=10::Wrong")
  = (reader0, [mkLine (-1) now 35 "error" "Wrong" opts])
  /\ dom opts = {[ "file"; "line"; "endLine" ]}
  /\ opts !! "col" = None /\ opts !! "endColumn" = None /\ opts !! "title" = None.
Proof.
  cbv zeta. split; [|split].
  - vm_compute. reflexivity.
  - rewrite !dom_insert_L, dom_singleton_L. set_solver.
  - repeat split; vm_compute; reflexivity.
Qed.

End Lines.

(** ** Percent-unescaping *)

Section Unescape.
Import ghc.

Ltac split_eqb :=
  repeat match goal with
  | |- context [spec.lower ?h] =>
    let v := eval vm_compute in (spec.lower h) in change (spec.lower h) with v
  end;
  repeat match goal with
  | |- context [Ascii.eqb ?x ?y] =>
    is_var x; destruct (Ascii.eqb_spec x y); subst; cbn
  end.

Lemma lookup_as_drop (s : list ascii) (i k : nat) :
  s !! (i + k)%nat = drop i s !! k.
Proof. by rewrite lookup_drop. Qed.

Lemma escData_head (s : list ascii) (i : nat) :
  escData s i = spec.headEscape spec.dataEscapes (drop i s).
Proof.
  unfold escData.
  rewrite <- (Nat.add_0_r i) at 1. rewrite !lookup_as_drop.
  destruct (drop i s) as [|p [|a [|b rest]]]; try reflexivity.
  cbn. unfold beq, spec.sameHex, beq. split_eqb; reflexivity.
Qed.

Lemma escProperty_head (s : list ascii) (i : nat) :
  escProperty s i = spec.headEscape spec.propertyEscapes (drop i s).
Proof.
  unfold escProperty.
  rewrite <- (Nat.add_0_r i) at 1. rewrite !lookup_as_drop.
  destruct (drop i s) as [|p [|a [|b rest]]]; try reflexivity.
  cbn. unfold beq, spec.sameHex, beq. split_eqb; reflexivity.
Qed.

Lemma decode_head tbl (l : list ascii) :
  spec.decode tbl l =
  match l with
  | [] => []
  | p :: t =>
    match spec.headEscape tbl l with
    | Some c => c :: spec.decode tbl (drop 3 l)
    | None => p :: spec.decode tbl t
    end
  end.
Proof.
  destruct l as [|p [|a [|b rest]]]; reflexivity.
Qed.

Lemma headEscape_length tbl (l : list ascii) c :
  spec.headEscape tbl l = Some c -> (3 <= length l)%nat.
Proof. destruct l as [|p [|a [|b rest]]]; cbn; (discriminate || lia). Qed.

(** The loop, which rewrites the slice in place and moves on by one index,
    computes the one-pass decoding of what lies from [i] on. *)
Lemma unescapeLoop_decode esc tbl
    (Hesc : forall s i, esc s i = spec.headEscape tbl (drop i s))
    (n : nat) : forall (s : list ascii) (i : nat) (behind : list ascii),
  (i <= length s)%nat -> (length s - i <= n)%nat ->
  fst (unescapeLoop esc n s i behind) = take i s ++ spec.decode tbl (drop i s).
Proof.
  induction n as [|n IH]; intros s i behind Hi Hn; cbn [unescapeLoop].
  - rewrite drop_ge, take_ge, app_nil_r by lia. reflexivity.
  - destruct (Nat.ltb_spec i (length s)) as [Hlt|Hge].
    + rewrite Hesc, (decode_head tbl (drop i s)).
      destruct (spec.headEscape tbl (drop i s)) as [c|] eqn:Hh.
      * apply headEscape_length in Hh. rewrite length_drop in Hh.
        destruct (drop i s) as [|p t] eqn:Hd.
        { apply (f_equal length) in Hd. rewrite length_drop in Hd. cbn in Hd. lia. }
        rewrite <- Hd, drop_drop. unfold unescape.
        rewrite IH.
        -- rewrite take_app_ge by (rewrite length_take; lia).
           rewrite drop_app_ge by (rewrite length_take; lia).
           rewrite length_take, Nat.min_l by lia.
           replace (S i - i)%nat with 1%nat by lia. cbn [take drop].
           rewrite take_0, <- app_assoc. reflexivity.
        -- rewrite length_app, length_take. cbn. rewrite length_drop. lia.
        -- rewrite length_app, length_take. cbn. rewrite length_drop. lia.
      * rewrite IH by lia.
        destruct (drop i s) as [|p t] eqn:Hd.
        { apply (f_equal length) in Hd. rewrite length_drop in Hd. cbn in Hd. lia. }
        assert (Ht : drop (S i) s = t).
        { replace (S i) with (i + 1)%nat by lia.
          rewrite <- drop_drop, Hd. reflexivity. }
        rewrite Ht, (take_S_r s i p), <- app_assoc; [reflexivity|].
        rewrite <- (Nat.add_0_r i), lookup_as_drop, Hd. reflexivity.
    + rewrite drop_ge, take_ge, app_nil_r by lia. reflexivity.
Qed.

Lemma unescapeData_decode (s : list ascii) :
  unescapeData s = spec.decode spec.dataEscapes s.
Proof.
  unfold unescapeData.
  rewrite (unescapeLoop_decode escData spec.dataEscapes escData_head) by lia.
  by rewrite take_0, drop_0.
Qed.

Lemma unescapeProperty_decode (s : list ascii) :
  unescapeProperty s =
  match s with [] => None | _ :: _ => Some (spec.decode spec.propertyEscapes s) end.
Proof.
  unfold unescapeProperty. destruct s as [|c s]; [reflexivity|].
  rewrite (unescapeLoop_decode escProperty spec.propertyEscapes escProperty_head) by lia.
  by rewrite take_0, drop_0.
Qed.

Lemma decode_nonempty tbl (s : list ascii) :
  s <> [] -> spec.decode tbl s <> [].
Proof.
  intros Hs. rewrite decode_head. destruct s as [|p t]; [done|].
  by destruct (spec.headEscape tbl (p :: t)).
Qed.

Lemma decode_length tbl (s : list ascii) :
  (length (spec.decode tbl s) <= length s)%nat.
Proof.
  remember (length s) as n eqn:Hn.
  revert s Hn. induction (lt_wf n) as [n _ IH]. intros s ->.
  rewrite decode_head. destruct s as [|p t]; [done|].
  destruct (spec.headEscape tbl (p :: t)) as [c|] eqn:Hh.
  - apply headEscape_length in Hh.
    cbn [length]. specialize (IH (length (drop 3 (p :: t)))).
    rewrite length_drop in IH. cbn [length] in *.
    specialize (IH ltac:(lia) (drop 3 (p :: t))). rewrite length_drop in IH.
    cbn [length] in IH. specialize (IH eq_refl). lia.
  - cbn [length]. specialize (IH (length t) ltac:(cbn; lia) t eq_refl). lia.
Qed.

(** The loop moves bytes inside the array of its slice and loses none. *)
Lemma unescapeLoop_length esc tbl
    (Hesc : forall s i, esc s i = spec.headEscape tbl (drop i s))
    (n : nat) : forall (s : list ascii) (i : nat) (behind : list ascii),
  (length (fst (unescapeLoop esc n s i behind))
   + length (snd (unescapeLoop esc n s i behind))
   = length s + length behind)%nat.
Proof.
  induction n as [|n IH]; intros s i behind; cbn [unescapeLoop]; [done|].
  destruct (i <? length s)%nat; [|done].
  destruct (esc s i) as [c|] eqn:He; [|apply IH].
  rewrite Hesc in He. apply headEscape_length in He. rewrite length_drop in He.
  rewrite IH. unfold unescape, unescape_left_behind.
  rewrite !length_app, length_take, length_drop. cbn [length].
  rewrite length_drop. lia.
Qed.

Lemma unescapeProperty_mem_length (s : list ascii) :
  length (unescapeProperty_mem s) = length s.
Proof.
  unfold unescapeProperty_mem.
  pose proof (unescapeLoop_length escProperty _ escProperty_head (length s) s 0 []) as H.
  destruct (unescapeLoop _ _ _ _ _) as [r behind]. cbn [fst snd length] in H.
  rewrite length_app. lia.
Qed.

Lemma unescapeData_mem_length (s : list ascii) :
  length (unescapeData_mem s) = length s.
Proof.
  unfold unescapeData_mem.
  pose proof (unescapeLoop_length escData _ escData_head (length s) s 0 []) as H.
  destruct (unescapeLoop _ _ _ _ _) as [r behind]. cbn [fst snd length] in H.
  rewrite length_app. lia.
Qed.

Lemma sub_length (s : list ascii) (lo hi : nat) :
  (lo <= hi <= length s)%nat -> length (sub s lo hi) = (hi - lo)%nat.
Proof. intros H. unfold sub. rewrite length_take, length_drop. lia. Qed.


Lemma done_length (s : list ascii) (j : nat) :
  (j + 2 <= length s)%nat ->
  length (take (j + 2) s ++ unescapeData_mem (drop (j + 2) s)) = length s.
Proof.
  intros H. rewrite length_app, length_take, unescapeData_mem_length, length_drop. lia.
Qed.

Lemma isColon_lookup (s : list ascii) (i : nat) :
  negb (isColon (s !! i)) = false -> (i < length s)%nat.
Proof.
  destruct (s !! i) eqn:E; [|done]. intros _. by eapply lookup_lt_Some.
Qed.







End Unescape.

(** ** The splitter *)

Section Splitter.
Import main.



Lemma lookup_last_unbroken (pre rest : list ascii) :
  spec.unbroken pre -> (pre ++ rest) !! (length pre - 1)%nat = Some CR ->
  (0 < length pre)%nat -> False.
Proof.
  intros Hpre Hl Hpos.
  rewrite lookup_app_l in Hl by lia.
  eapply Forall_lookup_1 in Hpre; [|exact Hl]. by destruct Hpre.
Qed.

Lemma drop_app_exact (pre mid rest : list ascii) (n : nat) :
  n = length (pre ++ mid) -> drop n ((pre ++ mid) ++ rest) = rest.
Proof. intros ->. apply drop_app_length. Qed.

(** The loop of [splitFunc] from an index before which no terminator lies:
    it returns the first line and how far to advance, or finds no
    terminator. *)
Lemma splitLoop_first (more rest : list ascii) : forall n pre,
  spec.unbroken pre -> (length rest <= n)%nat -> spec.mayFollow (pre ++ rest) more ->
  match splitLoop n (pre ++ rest) (length pre) with
  | Some (adv, tok) =>
    (0 < adv <= length (pre ++ rest))%nat
    /\ spec.linesFrom pre (rest ++ more)
       = tok :: spec.lines (drop adv (pre ++ rest) ++ more)
  | None => spec.unbroken rest
  end.
Proof.
  induction rest as [|c r IH]; intros n pre Hpre Hn Hmore.
  - assert (Hnone : splitLoop n (pre ++ []) (length pre) = None).
    { destruct n; [done|]. cbn [splitLoop].
      rewrite lookup_ge_None_2; [done|]. rewrite app_nil_r. lia. }
    rewrite Hnone. constructor.
  - destruct n as [|n]; [cbn in Hn; lia|]. cbn [length] in Hn.
    cbn [splitLoop].
    rewrite list_lookup_middle by done.
    cbn [app spec.linesFrom]. unfold beq.
    destruct (Ascii.eqb_spec c LF) as [->|Hlf].
    { (* LF *)
      assert (Hc : (0 <? length pre)%nat
                   && bool_decide ((pre ++ LF :: r) !! (length pre - 1)%nat = Some CR)
                   = false).
      { apply andb_false_iff.
        destruct (Nat.ltb_spec 0 (length pre)); [right|by left].
        apply bool_decide_eq_false. intros Hl.
        by eapply lookup_last_unbroken. }
      rewrite Hc, take_app_length, length_app. cbn [length]. split; [lia|].
      rewrite (cons_middle LF), app_assoc.
      rewrite drop_app_exact by (rewrite length_app; cbn; lia). done. }
    destruct (Ascii.eqb_spec c CR) as [->|Hcr].
    { (* CR *)
      rewrite length_app. cbn [length].
      destruct r as [|c1 r']; cbn [length].
      - replace (S (length pre) =? length pre + 1)%nat with true
          by (symmetry; apply Nat.eqb_eq; lia).
        cbn [orb]. rewrite take_app_length. split; [lia|].
        rewrite drop_ge by (rewrite length_app; cbn; lia).
        cbn [app]. unfold spec.mayFollow in Hmore. rewrite last_snoc in Hmore.
        specialize (Hmore eq_refl).
        destruct more as [|c1 m]; [done|]. unfold beq.
        destruct (Ascii.eqb_spec c1 LF) as [->|]; [done|done].
      - replace (S (length pre) =? length pre + S (S (length r')))%nat with false
          by (symmetry; apply Nat.eqb_neq; lia).
        cbn [orb].
        assert (Hnext : (pre ++ CR :: c1 :: r') !! S (length pre) = Some c1).
        { rewrite (cons_middle CR), app_assoc.
          replace (S (length pre)) with (length (pre ++ [CR]))
            by (rewrite length_app; cbn; lia).
          by rewrite list_lookup_middle. }
        rewrite Hnext. cbn [app]. unfold beq.
        destruct (Ascii.eqb_spec c1 LF) as [->|Hc1].
        + rewrite bool_decide_eq_true_2 by done. cbn [negb].
          destruct n as [|n]; [cbn in Hn; lia|]. cbn [splitLoop].
          rewrite Hnext. unfold beq.
          replace (Ascii.eqb LF LF) with true by reflexivity.
          replace (S (length pre) - 1)%nat with (length pre) by lia.
          rewrite list_lookup_middle by done.
          rewrite bool_decide_eq_true_2 by done. cbn [Nat.ltb Nat.leb andb].
          rewrite take_app_length. split; [lia|].
          replace (pre ++ CR :: LF :: r') with ((pre ++ [CR; LF]) ++ r')
            by (by rewrite <- app_assoc).
          rewrite drop_app_exact by (rewrite length_app; cbn; lia). done.
        + rewrite bool_decide_eq_false_2 by congruence. cbn [negb].
          rewrite take_app_length. split; [lia|].
          rewrite (cons_middle CR), app_assoc.
          rewrite drop_app_exact by (rewrite length_app; cbn; lia). done. }
    (* any other byte *)
    specialize (IH n (pre ++ [c])).
    rewrite <- app_assoc in IH. cbn [app] in IH.
    rewrite length_app in IH. cbn [length] in IH.
    replace (length pre + 1)%nat with (S (length pre)) in IH by lia.
    assert (Hpre' : spec.unbroken (pre ++ [c])).
    { apply Forall_app. split; [done|]. by apply Forall_singleton. }
    specialize (IH Hpre' ltac:(lia) Hmore).
    destruct (splitLoop n (pre ++ c :: r) (S (length pre))) as [[adv tok]|].
    + exact IH.
    + by constructor.
Qed.




Lemma mayFollow_nil (data : list ascii) : spec.mayFollow data [].
Proof. by intros _. Qed.




(** A CRLF that two reads cut in the middle is seen as a CR and an LF. *)
Example CRLF_across_reads :
  scan [B "a" ++ [CR]; [LF] ++ B "b"] = [B "a"; []; B "b"]
  /\ spec.lines (B "a" ++ [CR; LF] ++ B "b") = [B "a"; B "b"].
Proof. split; reflexivity. Qed.

End Splitter.

(** ** The sender's buffer *)

Section Sender.
Import main.

Variable mbs : Z.
Hypothesis mbs_range : 0 <= mbs <= 2 ^ 63.

Lemma total_app (ls : list line) (l : line) : total (ls ++ [l]) = total ls + size l.
Proof.
  induction ls as [|x ls IH]; [cbn; lia|].
  change (total ((x :: ls) ++ [l])) with (size x + total (ls ++ [l])).
  change (total (x :: ls)) with (size x + total ls). lia.
Qed.

Lemma written_app (cs : list call) (c : call) :
  written (cs ++ [c]) = written cs ++ written [c].
Proof. unfold written. by rewrite flat_map_app. Qed.

Lemma accounted_empty (cs : list call) : accounted mbs cs (mkSender [] 0 false).
Proof.
  exists []. split; [apply suffix_nil|].
  split; [done|]. split; [done|]. split; [cbn; lia | by right].
Qed.

Lemma flush_accounted (cs : list call) (err : option string) (s : sender) :
  accounted mbs cs s -> accounted mbs cs (fst (flush err s)).
Proof.
  intros H. unfold flush.
  destruct (length (buf s) =? 0)%nat; [exact H | apply accounted_empty].
Qed.

Lemma step_accounted (cs : list call) (c : call) (s : sender) :
  Forall (fun l => 0 <= size l < 2 ^ 63) (written [c]) ->
  accounted mbs cs s -> accounted mbs (cs ++ [c]) (step mbs s c).
Proof.
  intros Hc H.
  destruct c as [[l|] err|err]; cbn [step write].
  - destruct H as (ls & Hsuf & Hbuf & Htot & Hpos & Hlt).
    apply Forall_inv in Hc.
    assert (Hsmall : bufSize s < 2 ^ 63).
    { destruct Hlt as [Hlt| ->]; [lia|]. rewrite Htot. cbn. lia. }
    assert (Hsum : (bufSize s + size l mod 2 ^ 64) mod 2 ^ 64 = bufSize s + size l).
    { rewrite (Z.mod_small (size l)) by lia. apply Z.mod_small. lia. }
    set (s1 := mkSender _ _ _).
    assert (H1 : exists ls1 : list line,
               ls1 `suffix_of` written (cs ++ [CWrite (Some l) err])
               /\ buf s1 = toCborLine <$> ls1 /\ bufSize s1 = total ls1
               /\ 0 <= bufSize s1).
    { exists (ls ++ [l]). subst s1. cbn [buf bufSize].
      rewrite written_app, fmap_app, Hbuf, Hsum, total_app, Htot. cbn [written flat_map app].
      split; [by apply suffix_app|]. split; [done|]. split; [done|]. lia. }
    destruct (Z.leb_spec mbs (bufSize s1)) as [Hfull|Hroom].
    + unfold flush. subst s1. cbn [buf]. rewrite length_app. cbn [length].
      replace (length (buf s) + 1 =? 0)%nat with false
        by (symmetry; apply Nat.eqb_neq; lia).
      apply accounted_empty.
    + destruct H1 as (ls1 & ? & ? & ? & ?).
      exists ls1. split; [done|]. split; [done|]. split; [done|]. split; [done | by left].
  - unfold accounted. rewrite written_app. cbn [written flat_map app].
    rewrite app_nil_r. exact H.
  - apply flush_accounted.
    unfold accounted. rewrite written_app. cbn [written flat_map app].
    rewrite app_nil_r. exact H.
Qed.

Lemma after_accounted (cs : list call) :
  Forall (fun l => 0 <= size l < 2 ^ 63) (written cs) ->
  accounted mbs cs (after mbs cs).
Proof.
  induction cs as [|c cs IH] using rev_ind; intros Hsz.
  - apply accounted_empty.
  - rewrite written_app in Hsz. apply Forall_app in Hsz as [Hcs Hc].
    unfold after. rewrite fold_left_app. cbn [fold_left].
    apply step_accounted; [exact Hc|]. by apply IH.
Qed.

(** C3. After any calls of [write] and [flush] on a new sender, the buffer
    holds the last lines written, in order, and [bufSize] is the sum of their
    sizes; a flush leaves an empty buffer and the total 0; on an empty buffer
    it does nothing, and on any other it issues one query with the buffer and
    clears buffer, total and timer whatever the query returned.  Sizes are
    those of Go [int] lengths, and the threshold is at most 2^63. *)
Theorem C3_buffer_total (cs : list call)
    (Hsizes : Forall (fun l => 0 <= size l < 2 ^ 63) (written cs)) :
  let s := after mbs cs in
  (exists ls : list line,
     ls `suffix_of` written cs /\ buf s = toCborLine <$> ls /\ bufSize s = total ls)
  /\ (forall err, buf (fst (flush err s)) = [] /\ bufSize (fst (flush err s)) = 0)
  /\ (buf s = [] -> forall err, flush err s = (s, []))
  /\ (buf s <> [] -> forall err, exists log,
        flush err s = (mkSender [] 0 false, [Query (buf s); log])).
Proof.
  cbv zeta.
  destruct (after_accounted cs Hsizes) as (ls & Hsuf & Hbuf & Htot & _ & _).
  split; [by exists ls|].
  split; [|split].
  - intros err. unfold flush.
    destruct (Nat.eqb_spec (length (buf (after mbs cs))) 0) as [Hlen|Hlen]; [|done].
    cbn [fst]. apply nil_length_inv in Hlen. split; [done|].
    rewrite Hbuf in Hlen. apply fmap_nil_inv in Hlen. by rewrite Htot, Hlen.
  - intros Hb err. unfold flush. by rewrite Hb.
  - intros Hb err. unfold flush.
    destruct (Nat.eqb_spec (length (buf (after mbs cs))) 0) as [Hlen|Hlen].
    + by apply nil_length_inv in Hlen.
    + by eexists.
Qed.

End Sender.

(** An instance with the default threshold of 1 MiB: the second write reaches
    it and flushes, the third line stays in the buffer. *)
Lemma C3_buffer_total_witness :
  let l1 := main.newLine 5 true 600000 "a" in
  let l2 := main.newLine 6 false 500000 "b" in
  let l3 := main.newLine 7 true 3 "c" in
  let cs := [main.CWrite (Some l1) None; main.CWrite (Some l2) (Some "down");
             main.CWrite (Some l3) None] in
  exists ls : list main.line,
    ls `suffix_of` main.written cs
    /\ main.buf (main.after 1048576 cs) = main.toCborLine <$> ls
    /\ main.bufSize (main.after 1048576 cs) = main.total ls.
Proof.
  cbv zeta.
  refine (proj1 (C3_buffer_total 1048576 _ _ _)).
  - lia.
  - repeat constructor; cbn; lia.
Defined.

(** ** The RPC call that times out *)

Section Rpc.
Import sdb.








End Rpc.

(** ** The gate and the masks across lines *)

Section Gate.
Import ghc main.

(** No iteration of [streamReader] closes the gate. *)
Lemma enable_stays (fd1 : bool) (now : Z) (st : reader) (s : list ascii) :
  enable st = true -> enable (fst (body fd1 now st s)) = true.
Proof.
  intros Hon. unfold body. rewrite Hon.
  repeat case_match; cbn; done.
Qed.

Lemma run_enable (fd1 : bool) (ls : list (Z * list ascii)) : forall st,
  enable st = true -> enable (fst (run fd1 st ls)) = true.
Proof.
  induction ls as [|[now s] ls IH]; intros st Hon; [done|].
  cbn [run].
  pose proof (enable_stays fd1 now st s Hon) as H1.
  destruct (body fd1 now st s) as [st1 out1]. cbn [fst] in H1.
  specialize (IH st1 H1).
  by destruct (run fd1 st1 ls) as [st2 out2].
Qed.

(** C1 fails on the code. On the lines [::stop-commands::TOKEN],
    [::add-mask::x], [::TOKEN], [::add-mask::y] and [x and y] of the primary
    stream the gate stays open: [stop-commands] and [::TOKEN] are sent as
    plain lines, both masks are registered, and in the last line [x] is masked
    as well as [y]. *)
Theorem C1_stop_commands_has_no_effect :
  run true reader0
    [(0, B "::stop-commands::TOKEN"); (1, B "::add-mask::x"); (2, B "::TOKEN");
     (3, B "::add-mask::y"); (4, B "x and y")]
  = (mkReader [B "x"; B "y"] true "",
     [newLine 0 true 22 "::stop-commands::TOKEN"; newLine 2 true 7 "::TOKEN";
      newLine 4 true 11 "*** and ***"]).
Proof. vm_compute. reflexivity. Qed.

(** The reader of the secondary stream sends every line as it was read. *)
Lemma body_err (now : Z) (s : list ascii) :
  body false now reader0 s = (reader0, [newLine now false (len s) (S_ s)]).
Proof. reflexivity. Qed.








End Gate.

(** ** The order of iteration in [Map] *)

Section MapOrder.
Import ghc.

Lemma MapLoop_ok (d : gmap string (list ascii)) (ps : list (string * rule)) :
  forall out,
  NoDup ps.*1 -> forallb (fun pr => negb (fails d pr)) ps = true ->
  MapLoop ps d out = Ok (list_to_map (omap (keeps d) ps) ∪ out).
Proof.
  induction ps as [|[p r] ps IH]; intros out Hnd Hok.
  - cbn. by rewrite (left_id_L ∅ (∪)).
  - cbn [fmap list_fmap fst] in Hnd. apply NoDup_cons in Hnd as [Hp Hnd].
    cbn [forallb] in Hok. apply andb_true_iff in Hok as [Hpr Hok].
    cbn [MapLoop omap list_omap]. unfold fails in Hpr. unfold keeps at 1. cbn [fst snd] in *.
    destruct (into r (d !! p)) as [v|e].
    + rewrite IH by done. cbn [list_to_map foldr]. f_equal.
      rewrite <- insert_union_l. symmetry. apply insert_union_r.
      apply not_elem_of_list_to_map_1. intros Hin. apply Hp.
      apply list_elem_of_fmap in Hin as [[p' v'] [-> Hin]].
      apply list_elem_of_omap in Hin as [[p2 r2] [Hin Hk]].
      unfold keeps in Hk. cbn [fst snd] in Hk.
      destruct (into r2 (d !! p2)); [|done]. injection Hk as -> _.
      apply list_elem_of_fmap. by exists (p', r2).
    + destruct e; try done. by apply IH.
Qed.

Lemma MapLoop_err (d : gmap string (list ascii)) (ps : list (string * rule)) :
  forall out,
  existsb (fails d) ps = true -> exists e, MapLoop ps d out = Err e.
Proof.
  induction ps as [|[p r] ps IH]; intros out Hex; [done|].
  cbn [existsb] in Hex. cbn [MapLoop]. unfold fails in Hex at 1. cbn [fst snd] in Hex.
  destruct (into r (d !! p)) as [v|e].
  - apply IH. by rewrite orb_false_l in Hex.
  - destruct e; try by eexists. apply IH. by rewrite orb_false_l in Hex.
Qed.

Lemma existsb_perm {A} (f : A -> bool) (l l' : list A) :
  l ≡ₚ l' -> existsb f l = existsb f l'.
Proof.
  induction 1 as [|x l l' _ IH|x y l|l l' l'' _ IH1 _ IH2]; cbn.
  - done.
  - by rewrite IH.
  - by destruct (f x), (f y).
  - by rewrite IH1.
Qed.

Lemma forallb_not_existsb {A} (f : A -> bool) (l : list A) :
  existsb f l = false -> forallb (fun x => negb (f x)) l = true.
Proof.
  induction l as [|x l IH]; [done|]. cbn.
  intros [-> H]%orb_false_iff. by rewrite IH.
Qed.

(** In whatever order the declared names are visited, [Map] returns the same
    map, or it fails in every order. *)
Lemma Map_any_order (o : GHCOptions) (ps : list (string * rule)) :
  ps ≡ₚ map_to_list (defs o) ->
  (exists m, MapLoop ps (data o) ∅ = Ok m /\ Map o = Ok m)
  \/ (exists e e', MapLoop ps (data o) ∅ = Err e /\ Map o = Err e').
Proof.
  intros Hperm. unfold Map.
  pose proof (NoDup_fst_map_to_list (defs o)) as Hnd.
  assert (Hnd' : NoDup ps.*1) by (by rewrite Hperm).
  destruct (existsb (fails (data o)) ps) eqn:Hex.
  - right.
    destruct (MapLoop_err (data o) ps ∅ Hex) as [e He].
    rewrite (existsb_perm _ _ _ Hperm) in Hex.
    destruct (MapLoop_err (data o) _ ∅ Hex) as [e' He'].
    by exists e, e'.
  - left. eexists. split.
    + apply MapLoop_ok; [done | by apply forallb_not_existsb].
    + rewrite (existsb_perm _ _ _ Hperm) in Hex.
      rewrite MapLoop_ok; [|done | by apply forallb_not_existsb].
      f_equal. f_equal. apply list_to_map_proper.
      * clear -Hnd.
        induction (map_to_list (defs o)) as [|[p r] l IH]; [constructor|].
        cbn [fmap list_fmap fst] in Hnd. apply NoDup_cons in Hnd as [Hp Hnd].
        cbn [omap list_omap]. unfold keeps at 1. cbn [fst snd].
        destruct (into r (data o !! p)); [|by apply IH].
        cbn [fmap list_fmap fst]. apply NoDup_cons. split; [|by apply IH].
        intros Hin. apply Hp.
        apply list_elem_of_fmap in Hin as [[p' v'] [-> Hin]].
        apply list_elem_of_omap in Hin as [[p2 r2] [Hin Hk]].
        unfold keeps in Hk. cbn [fst snd] in Hk.
        destruct (into r2 (data o !! p2)); [|done]. injection Hk as -> _.
        apply list_elem_of_fmap. by exists (p', r2).
      * by rewrite Hperm.
Qed.

End MapOrder.

(** ** The lines of the README's example *)

Section Readme.
Import ghc main.

Example debug_line :
  streamReader true [(0, B "::debug::ichiro")]
  = [mkLine (-1) 0 15 "debug" "ichiro" ∅].
Proof. vm_compute. reflexivity. Qed.

Example mask_applies_to_later_lines :
  streamReader true
    [(0, B "my name is ichiro"); (1, B "::add-mask::ichiro");
     (2, B "my name is ichiro"); (3, B "::debug::ichiro")]
  = [newLine 0 true 17 "my name is ichiro"; newLine 2 true 14 "my name is ***";
     mkLine (-1) 3 15 "debug" "***" ∅].
Proof. vm_compute. reflexivity. Qed.

Example mask_after_ideographic_space :
  streamReader true [(0, ideographicSpace ++ B "::add-mask::jiro"); (1, B "jiro")]
  = [newLine 1 true 3 "***"].
Proof. vm_compute. reflexivity. Qed.

Example data_keeps_property_escapes :
  unescapeData (B "a%2Cb%0a%25") = B "a%2Cb" ++ [LF] ++ B "%"
  /\ unescapeProperty (B "a%2cb%3A") = Some (B "a,b:").
Proof. split; vm_compute; reflexivity. Qed.

Example natural_numbers :
  naturalNumOption (Some (B "10")) = Ok (VInt 10)
  /\ naturalNumOption (Some (B "0")) = Err ErrOutOfRange
  /\ naturalNumOption (Some (B "1.5")) = Err ErrJSON.
Proof. repeat split; vm_compute; reflexivity. Qed.

End Readme.

(** * Further properties *)

(** ** What the sender hands to the transport *)

Section Batches.
Import main batching.

Lemma runCalls_after (mbs : Z) (cs : list call) : forall s,
  fst (runCalls mbs s cs) = fold_left (step mbs) cs s.
Proof.
  induction cs as [|c cs IH]; intros s; [done|].
  cbn [runCalls fold_left].
  destruct (stepE mbs s c) as [s1 e1] eqn:E1.
  specialize (IH s1). destruct (runCalls mbs s1 cs) as [s2 e2]. cbn [fst] in *.
  rewrite IH. f_equal. destruct c; cbn [stepE step] in *; by rewrite E1.
Qed.

Lemma stepE_batches (mbs : Z) (s : sender) (c : call) :
  concat (batches (snd (stepE mbs s c))) ++ buf (fst (stepE mbs s c))
  = buf s ++ (toCborLine <$> written [c])
  /\ Forall (fun b => b <> []) (batches (snd (stepE mbs s c))).
Proof.
  assert (Hflush : forall err s0,
    concat (batches (snd (flush err s0))) ++ buf (fst (flush err s0)) = buf s0
    /\ Forall (fun b => b <> []) (batches (snd (flush err s0)))).
  { intros err s0. unfold flush.
    destruct (Nat.eqb_spec (length (buf s0)) 0) as [Hl|Hl]; [by split|].
    cbn [snd fst buf]. unfold batches. cbn [flat_map app].
    split.
    - destruct err; cbn; by rewrite !app_nil_r.
    - destruct err; cbn; repeat constructor; by destruct (buf s0). }
  destruct c as [[l|] err|err]; cbn [stepE write written flat_map app fmap list_fmap].
  - set (s1 := mkSender _ _ _).
    destruct (mbs <=? bufSize s1).
    + destruct (Hflush err s1) as [H1 H2]. split; [|done].
      rewrite H1. subst s1. by cbn [buf].
    + cbn [fst snd batches flat_map concat app]. subst s1. by cbn [buf].
  - cbn [fst snd batches flat_map concat app]. by rewrite app_nil_r.
  - destruct (Hflush err s) as [H1 H2]. split; [|done]. by rewrite H1, app_nil_r.
Qed.

Lemma batches_app (es es' : list effect) :
  batches (es ++ es') = batches es ++ batches es'.
Proof. unfold batches. by rewrite flat_map_app. Qed.

Lemma written_cons (c : call) (cs : list call) :
  written (c :: cs) = written [c] ++ written cs.
Proof. unfold written. cbn [flat_map]. by rewrite app_nil_r. Qed.

Lemma runCalls_batches (mbs : Z) (cs : list call) : forall s,
  concat (batches (snd (runCalls mbs s cs))) ++ buf (fst (runCalls mbs s cs))
  = buf s ++ (toCborLine <$> written cs)
  /\ Forall (fun b => b <> []) (batches (snd (runCalls mbs s cs))).
Proof.
  induction cs as [|c cs IH]; intros s.
  - cbn. by rewrite app_nil_r.
  - cbn [runCalls].
    destruct (stepE_batches mbs s c) as [H1 H2].
    destruct (stepE mbs s c) as [s1 e1]. cbn [fst snd] in *.
    destruct (IH s1) as [IH1 IH2].
    destruct (runCalls mbs s1 cs) as [s2 e2]. cbn [fst snd] in *.
    rewrite batches_app, concat_app, written_cons, fmap_app. split.
    + rewrite <- app_assoc, IH1, !app_assoc. by rewrite H1.
    + by apply Forall_app.
Qed.

(** Whatever the calls, their outcomes and the threshold: the batches handed
    to the transport, one after the other, followed by what is still in the
    buffer, are the lines written, each once and in the order of writing; and
    no batch is empty. *)
Theorem sender_hands_over_each_line_once (mbs : Z) (cs : list call) :
  let '(s, es) := runCalls mbs newSender cs in
  concat (batches es) ++ buf s = toCborLine <$> written cs
  /\ Forall (fun b => b <> []) (batches es)
  /\ s = after mbs cs.
Proof.
  destruct (runCalls_batches mbs cs newSender) as [H1 H2].
  pose proof (runCalls_after mbs cs newSender) as H3.
  destruct (runCalls mbs newSender cs) as [s es]. cbn [fst snd] in *.
  by split; [|split].
Qed.

(** The idle timer is armed exactly while lines are waiting in the buffer. *)
Theorem timer_armed_iff_lines_wait (mbs : Z) (cs : list call) :
  timer (after mbs cs) = true <-> buf (after mbs cs) <> [].
Proof.
  unfold after.
  assert (H : forall s, (timer s = true <-> buf s <> []) ->
            timer (fold_left (step mbs) cs s) = true
            <-> buf (fold_left (step mbs) cs s) <> []).
  { induction cs as [|c cs IH]; intros s Hs; [exact Hs|].
    cbn [fold_left]. apply IH.
    assert (Hflush : forall err s0, (timer s0 = true <-> buf s0 <> []) ->
              timer (fst (flush err s0)) = true <-> buf (fst (flush err s0)) <> []).
    { intros err s0 H0. unfold flush.
      destruct (length (buf s0) =? 0)%nat; [exact H0|]. cbn. split; done. }
    destruct c as [[l|] err|err]; cbn [step write fst].
    - set (s1 := mkSender _ _ _).
      assert (H1 : timer s1 = true <-> buf s1 <> []).
      { subst s1. cbn. split; [|done]. intros _. by destruct (buf s). }
      destruct (mbs <=? bufSize s1); [by apply Hflush | exact H1].
    - exact Hs.
    - by apply Hflush. }
  apply H. cbn. split; done.
Qed.

End Batches.

(** ** The sender's threshold *)

Section Threshold.
Import main.

(** With sizes that are lengths and a threshold of at most 2^63: when a call
    returns, the buffer is empty with the total 0, or its total is below the
    threshold. *)
Theorem buffer_stays_below_threshold (mbs : Z) (cs : list call)
    (Hmbs : 0 <= mbs <= 2 ^ 63)
    (Hsizes : Forall (fun l => 0 <= size l < 2 ^ 63) (written cs)) :
  (buf (after mbs cs) = [] /\ bufSize (after mbs cs) = 0)
  \/ (0 <= bufSize (after mbs cs) < mbs).
Proof.
  destruct (after_accounted mbs Hmbs cs Hsizes) as (ls & _ & Hbuf & Htot & Hpos & Hlt).
  destruct Hlt as [Hlt| ->]; [right; lia | left].
  by rewrite Hbuf, Htot.
Qed.

(** An instance with a threshold of 10 bytes: the first write stays, the
    second reaches 10 and is flushed. *)
Lemma buffer_stays_below_threshold_witness :
  let cs := [CWrite (Some (newLine 0 true 4 "abcd")) None;
             CWrite (Some (newLine 1 true 6 "efghij")) None] in
  (buf (after 10 cs) = [] /\ bufSize (after 10 cs) = 0)
  \/ (0 <= bufSize (after 10 cs) < 10).
Proof.
  cbv zeta. apply buffer_stays_below_threshold; [lia|].
  repeat constructor; cbn; lia.
Defined.

End Threshold.

(** ** Tokens of the splitter *)

Section Tokens.
Import main.



Lemma splitLoop_shape (rest : list ascii) : forall n pre,
  spec.unbroken pre -> (length rest <= n)%nat ->
  match splitLoop n (pre ++ rest) (length pre) with
  | Some (adv, tok) =>
    exists mid term,
      tok = pre ++ mid /\ spec.unbroken mid /\ terminator term
      /\ rest = mid ++ term ++ drop adv (pre ++ rest)
      /\ adv = (length tok + length term)%nat
  | None => True
  end.
Proof.
  induction rest as [|c r IH]; intros n pre Hpre Hn.
  - assert (Hnone : splitLoop n (pre ++ []) (length pre) = None).
    { destruct n; [done|]. cbn [splitLoop].
      rewrite lookup_ge_None_2; [done|]. rewrite app_nil_r. lia. }
    by rewrite Hnone.
  - destruct n as [|n]; [cbn in Hn; lia|]. cbn [length] in Hn.
    cbn [splitLoop].
    rewrite list_lookup_middle by done. unfold beq.
    destruct (Ascii.eqb_spec c LF) as [->|Hlf].
    { assert (Hc : (0 <? length pre)%nat
                   && bool_decide ((pre ++ LF :: r) !! (length pre - 1)%nat = Some CR)
                   = false).
      { apply andb_false_iff.
        destruct (Nat.ltb_spec 0 (length pre)); [right|by left].
        apply bool_decide_eq_false. intros Hl.
        by eapply lookup_last_unbroken. }
      rewrite Hc, take_app_length.
      exists [], [LF]. rewrite app_nil_r. cbn [app length].
      split; [done|]. split; [constructor|]. split; [by left|]. split; [|lia].
      rewrite (cons_middle LF), app_assoc.
      rewrite drop_app_exact by (rewrite length_app; cbn; lia). done. }
    destruct (Ascii.eqb_spec c CR) as [->|Hcr].
    { rewrite length_app. cbn [length].
      destruct r as [|c1 r']; cbn [length].
      - replace (S (length pre) =? length pre + 1)%nat with true
          by (symmetry; apply Nat.eqb_eq; lia).
        cbn [orb]. rewrite take_app_length.
        exists [], [CR]. rewrite app_nil_r. cbn [app length].
        split; [done|]. split; [constructor|]. split; [right; by left|]. split; [|lia].
        rewrite drop_ge by (rewrite length_app; cbn; lia). done.
      - replace (S (length pre) =? length pre + S (S (length r')))%nat with false
          by (symmetry; apply Nat.eqb_neq; lia).
        cbn [orb].
        assert (Hnext : (pre ++ CR :: c1 :: r') !! S (length pre) = Some c1).
        { rewrite (cons_middle CR), app_assoc.
          replace (S (length pre)) with (length (pre ++ [CR]))
            by (rewrite length_app; cbn; lia).
          by rewrite list_lookup_middle. }
        rewrite Hnext.
        destruct (Ascii.eqb_spec c1 LF) as [->|Hc1].
        + rewrite bool_decide_eq_true_2 by done. cbn [negb].
          destruct n as [|n]; [cbn in Hn; lia|]. cbn [splitLoop].
          rewrite Hnext. unfold beq.
          replace (Ascii.eqb LF LF) with true by reflexivity.
          replace (S (length pre) - 1)%nat with (length pre) by lia.
          rewrite list_lookup_middle by done.
          rewrite bool_decide_eq_true_2 by done. cbn [Nat.ltb Nat.leb andb].
          rewrite take_app_length.
          exists [], [CR; LF]. rewrite app_nil_r. cbn [app length].
          split; [done|]. split; [constructor|]. split; [right; by right|]. split; [|lia].
          replace (pre ++ CR :: LF :: r') with ((pre ++ [CR; LF]) ++ r')
            by (by rewrite <- app_assoc).
          rewrite drop_app_exact by (rewrite length_app; cbn; lia). done.
        + rewrite bool_decide_eq_false_2 by congruence. cbn [negb].
          rewrite take_app_length.
          exists [], [CR]. rewrite app_nil_r. cbn [app length].
          split; [done|]. split; [constructor|]. split; [right; by left|]. split; [|lia].
          rewrite (cons_middle CR), app_assoc.
          rewrite drop_app_exact by (rewrite length_app; cbn; lia). done. }
    specialize (IH n (pre ++ [c])).
    rewrite <- app_assoc in IH. cbn [app] in IH.
    rewrite length_app in IH. cbn [length] in IH.
    replace (length pre + 1)%nat with (S (length pre)) in IH by lia.
    assert (Hpre' : spec.unbroken (pre ++ [c])).
    { apply Forall_app. split; [done|]. by apply Forall_singleton. }
    specialize (IH Hpre' ltac:(lia)).
    destruct (splitLoop n (pre ++ c :: r) (S (length pre))) as [[adv tok]|]; [|done].
    destruct IH as (mid & term & Htok & Hmid & Hterm & Hrest & Hadv).
    exists (c :: mid), term.
    split; [by rewrite Htok, <- app_assoc|].
    split; [by constructor|]. split; [done|].
    split; [by rewrite Hrest at 1|done].
Qed.

Lemma splitFunc_shape (data : list ascii) (atEOF : bool)
    (adv : nat) (tok : list ascii)
    (Hsplit : splitFunc data atEOF = Some (adv, tok)) :
  exists term,
    data = tok ++ term ++ drop adv data
    /\ spec.unbroken tok
    /\ (terminator term \/ (term = [] /\ atEOF = true /\ drop adv data = []))
    /\ adv = (length tok + length term)%nat
    /\ (0 < adv)%nat.
Proof.
  unfold splitFunc in Hsplit.
  destruct (atEOF && (length data =? 0)%nat) eqn:Hempty; [done|].
  pose proof (splitLoop_shape data (length data) [] (Forall_nil_2 _) (Nat.le_refl _)) as H.
  pose proof (splitLoop_first [] data (length data) [] (Forall_nil_2 _)
                (Nat.le_refl _) (mayFollow_nil _)) as Hu.
  cbn [app length] in H, Hu.
  destruct (splitLoop (length data) data 0) as [[adv' tok']|].
  - injection Hsplit as -> ->.
    destruct H as (mid & term & Htok & Hmid & Hterm & Hrest & Hadv).
    cbn [app] in Htok. subst mid.
    exists term. split; [done|]. split; [done|]. split; [by left|]. split; [done|].
    destruct Hterm as [->|[->| ->]]; cbn [length] in Hadv; lia.
  - destruct atEOF; [|done]. injection Hsplit as <- <-.
    cbn [andb] in Hempty. apply Nat.eqb_neq in Hempty.
    exists []. rewrite drop_all, !app_nil_r. cbn [length].
    split; [done|]. split; [done|]. split; [by right|]. split; lia.
Qed.

(** When [splitFunc] returns a token, the data begins with the token, which
    holds no terminator byte, then one terminator (LF, CR or CRLF), or, only
    at the end of input, nothing; [advance] covers both and is positive. *)
Theorem splitFunc_token_shape (data : list ascii) (atEOF : bool)
    (adv : nat) (tok : list ascii)
    (Hsplit : splitFunc data atEOF = Some (adv, tok)) :
  exists term,
    data = tok ++ term ++ drop adv data
    /\ spec.unbroken tok
    /\ (terminator term \/ (term = [] /\ atEOF = true /\ drop adv data = []))
    /\ adv = (length tok + length term)%nat
    /\ (0 < adv)%nat.
Proof. exact (splitFunc_shape data atEOF adv tok Hsplit). Qed.

(** An instance: a CRLF after two bytes. *)
Lemma splitFunc_token_shape_witness :
  exists term,
    B "ab" ++ [CR; LF] ++ B "c" = B "ab" ++ term ++ drop 4 (B "ab" ++ [CR; LF] ++ B "c")
    /\ spec.unbroken (B "ab")
    /\ (terminator term
        \/ (term = [] /\ false = true /\ drop 4 (B "ab" ++ [CR; LF] ++ B "c") = []))
    /\ 4%nat = (length (B "ab") + length term)%nat
    /\ (0 < 4)%nat.
Proof.
  apply (splitFunc_token_shape (B "ab" ++ [CR; LF] ++ B "c") false 4 (B "ab")).
  reflexivity.
Defined.






End Tokens.

(** ** Masking *)

Section Masking.
Import main.

Lemma HasPrefix_spec (s p : list ascii) :
  gobytes.HasPrefix s p = true <-> p `prefix_of` s.
Proof.
  revert s. induction p as [|x p IH]; intros s.
  - split; [intros _; apply prefix_nil | by destruct s].
  - destruct s as [|c s]; cbn [gobytes.HasPrefix].
    + split; [done|]. intros [k Hk]. discriminate.
    + unfold beq. destruct (Ascii.eqb_spec x c) as [->|Hne]; cbn [andb].
      * rewrite IH. split; [apply prefix_cons|]. by intros ?%prefix_cons_inv_2.
      * split; [done|]. by intros ?%prefix_cons_inv_1.
Qed.

Lemma occurs_cons (m : list ascii) (x : ascii) (l : list ascii) :
  occurs m (x :: l) -> m `prefix_of` (x :: l) \/ occurs m l.
Proof.
  intros (pre & post & H). destruct pre as [|y pre].
  - left. by exists post.
  - right. injection H as _ H. by exists pre, post.
Qed.

Lemma occurs_behind (m pre l : list ascii) : occurs m l -> occurs m (pre ++ l).
Proof.
  intros (a & b & ->). exists (pre ++ a), b. by rewrite <- app_assoc.
Qed.

Lemma occurs_prefix (m l : list ascii) : m `prefix_of` l -> occurs m l.
Proof. intros [k ->]. by exists [], k. Qed.

Lemma starFree_not_in_marker (m r : list ascii) :
  m <> [] -> starFree m -> occurs m (masking ++ r) -> occurs m r.
Proof.
  intros Hne Hm H.
  assert (Hno : forall l, ~ m `prefix_of` ("*"%char :: l)).
  { intros l [k Hk]. destruct m as [|x m]; [done|].
    apply Forall_cons in Hm as [Hx _]. by injection Hk as <-. }
  change (masking ++ r) with ("*"%char :: "*"%char :: "*"%char :: r) in H.
  do 3 (apply occurs_cons in H as [H|H]; [by apply Hno in H|]).
  exact H.
Qed.

(** A prefix without the marker's byte comes from the input. *)
Lemma replace_prefix (old : list ascii) (n : nat) : forall s m,
  starFree m -> m `prefix_of` gobytes.replaceNonEmpty n s old masking ->
  m `prefix_of` s.
Proof.
  induction n as [|n IH]; intros s m Hm H; [exact H|].
  cbn [gobytes.replaceNonEmpty] in H.
  destruct s as [|c s]; [exact H|].
  destruct m as [|x m]; [apply prefix_nil|].
  apply Forall_cons in Hm as [Hx Hm].
  destruct (gobytes.HasPrefix (c :: s) old).
  - destruct H as [k Hk]. by injection Hk as <-.
  - pose proof (prefix_cons_inv_1 _ _ _ _ H) as ->.
    apply prefix_cons, IH; [done|]. by eapply prefix_cons_inv_2.
Qed.

(** Replacing brings in no occurrence of a token without the marker's byte. *)
Lemma replace_occurs (old m : list ascii) (n : nat) : forall s,
  m <> [] -> starFree m ->
  occurs m (gobytes.replaceNonEmpty n s old masking) -> occurs m s.
Proof.
  induction n as [|n IH]; intros s Hne Hm H; [exact H|].
  pose proof (replace_prefix old (S n) s m Hm) as Hp.
  cbn [gobytes.replaceNonEmpty] in H, Hp.
  destruct s as [|c s]; [exact H|].
  destruct (gobytes.HasPrefix (c :: s) old).
  - apply starFree_not_in_marker in H; [|done..].
    apply IH in H; [|done..].
    rewrite <- (take_drop (length old) (c :: s)). by apply occurs_behind.
  - apply occurs_cons in H as [H|H].
    + by apply occurs_prefix, Hp.
    + apply (occurs_behind m [c]). by apply IH.
Qed.

(** After the replacement the token is gone. *)
Lemma replace_hides (old : list ascii) (n : nat) : forall s,
  old <> [] -> starFree old -> (length s <= n)%nat ->
  ~ occurs old (gobytes.replaceNonEmpty n s old masking).
Proof.
  assert (Hnil : old <> [] -> ~ occurs old []).
  { intros Hne (pre & post & H). symmetry in H.
    apply app_eq_nil in H as [_ H]. by apply app_eq_nil in H as [H _]. }
  induction n as [|n IH]; intros s Hne Hm Hn.
  - destruct s; [|cbn in Hn; lia]. by apply Hnil.
  - pose proof (replace_prefix old (S n) s old Hm) as Hp.
    cbn [gobytes.replaceNonEmpty] in *.
    destruct s as [|c s]; [by apply Hnil|].
    destruct (gobytes.HasPrefix (c :: s) old) eqn:Hpre.
    + intros H. apply starFree_not_in_marker in H; [|done..].
      revert H. apply IH; [done..|].
      rewrite length_drop. cbn [length] in *. destruct old; [done|]. cbn. lia.
    + intros H. apply occurs_cons in H as [H|H].
      * apply Hp, HasPrefix_spec in H. congruence.
      * revert H. apply IH; [done..|]. cbn in Hn. lia.
Qed.

Lemma mask_snoc (s : list ascii) (ms : list (list ascii)) (m : list ascii) :
  mask s (ms ++ [m]) = gobytes.ReplaceAll (mask s ms) m masking.
Proof. unfold mask. by rewrite fold_left_app. Qed.

(** In a masked line none of the tokens occurs, as long as no token is empty
    or holds the byte [*] of the marker. *)
Theorem mask_hides_every_token (s : list ascii) (ms : list (list ascii))
    (Htokens : Forall (fun m => m <> [] /\ starFree m) ms) :
  Forall (fun m => ~ occurs m (mask s ms)) ms.
Proof.
  induction ms as [|m ms IH] using rev_ind; [constructor|].
  apply Forall_app in Htokens as [Hms Hm]. apply Forall_inv in Hm as [Hne Hsf].
  rewrite mask_snoc.
  destruct m as [|x m]; [done|]. cbn [gobytes.ReplaceAll].
  apply Forall_app. split.
  - specialize (IH Hms). rewrite Forall_forall in IH, Hms. apply Forall_forall.
    intros m' Hin Hocc. apply (IH m' Hin).
    destruct (Hms m' Hin) as [Hne' Hsf'].
    by apply replace_occurs in Hocc.
  - apply Forall_singleton. by apply replace_hides.
Qed.

(** An instance: two tokens, one inside an occurrence of the other. *)
Lemma mask_hides_every_token_witness :
  Forall (fun m => ~ occurs m (mask (B "key=abc123; abc") [B "abc123"; B "abc"]))
         [B "abc123"; B "abc"].
Proof.
  apply mask_hides_every_token.
  repeat constructor; try discriminate; intros [=].
Defined.

(** A line in which a token does not occur is not changed by its replacement. *)
Lemma replace_absent (old : list ascii) (n : nat) : forall s,
  ~ occurs old s -> gobytes.replaceNonEmpty n s old masking = s.
Proof.
  induction n as [|n IH]; intros s H; [done|]. cbn [gobytes.replaceNonEmpty].
  destruct s as [|c s]; [done|].
  destruct (gobytes.HasPrefix (c :: s) old) eqn:Hp.
  - exfalso. apply H, occurs_prefix. by apply HasPrefix_spec.
  - f_equal. apply IH. intros Ho. apply H. by apply (occurs_behind old [c]).
Qed.

(** A line in which no token occurs is sent as it is. *)
Theorem mask_leaves_clean_line (s : list ascii) (ms : list (list ascii))
    (Hclean : Forall (fun m => m <> [] /\ ~ occurs m s) ms) :
  mask s ms = s.
Proof.
  induction ms as [|m ms IH] using rev_ind; [done|].
  apply Forall_app in Hclean as [Hms Hm]. apply Forall_inv in Hm as [Hne Hno].
  rewrite mask_snoc, (IH Hms).
  destruct m as [|x m]; [done|]. cbn [gobytes.ReplaceAll]. by apply replace_absent.
Qed.

(** An instance: neither token has all its bytes in the line. *)
Lemma mask_leaves_clean_line_witness :
  mask (B "nothing here") [B "secret"; B "token"] = B "nothing here".
Proof.
  apply mask_leaves_clean_line.
  repeat constructor; try discriminate.
  - intros (pre & post & H). apply (f_equal (fun l => existsb (Ascii.eqb "s") l)) in H.
    rewrite !existsb_app in H. cbn in H. rewrite orb_true_r in H. discriminate.
  - intros (pre & post & H). apply (f_equal (fun l => existsb (Ascii.eqb "k") l)) in H.
    rewrite !existsb_app in H. cbn in H. rewrite !orb_true_r in H. discriminate.
Defined.

End Masking.

(** ** What becomes of every line *)

Section Accounting.
Import ghc main.

Lemma body_outcome (fd1 : bool) (now : Z) (st : reader) (s : list ascii) :
  enable st = true ->
  (exists e, body fd1 now st s = (st, [e]))
  \/ (fd1 = true /\ exists tok, tok <> []
        /\ body fd1 now st s = (mkReader (masks st ++ [tok]) true (endtoken st), [])).
Proof.
  intros Hon. unfold body. rewrite Hon.
  repeat case_match; subst; try discriminate; try (left; by eexists).
  right. split; [by destruct fd1|].
  match goal with
  | H : (0 <? len (Data ?c)) && _ = true |- _ =>
    exists (Data c); split; [|done];
    apply andb_true_iff in H as [H _]; apply Z.ltb_lt in H;
    intros Hnil; rewrite Hnil in H; unfold len in H; cbn in H; lia
  end.
Qed.

Lemma run_accounts (fd1 : bool) (ls : list (Z * list ascii)) : forall st,
  enable st = true ->
  enable (fst (run fd1 st ls)) = true
  /\ endtoken (fst (run fd1 st ls)) = endtoken st
  /\ masks st `prefix_of` masks (fst (run fd1 st ls))
  /\ (length (snd (run fd1 st ls)) + length (masks (fst (run fd1 st ls)))
      = length ls + length (masks st))%nat.
Proof.
  induction ls as [|[now s] ls IH]; intros st Hon.
  - cbn [run fst snd length]. split; [done|]. split; [done|]. split; [done|]. lia.
  - cbn [run].
    destruct (body_outcome fd1 now st s Hon) as [[e He]|(-> & tok & Htok & He)];
      rewrite He; clear He.
    + destruct (IH st Hon) as (H1 & H2 & H3 & H4).
      destruct (run fd1 st ls) as [st2 out2]. cbn [fst snd length app] in *.
      split; [done|]. split; [done|]. split; [done|]. lia.
    + destruct (IH (mkReader (masks st ++ [tok]) true (endtoken st)) eq_refl)
        as (H1 & H2 & H3 & H4).
      destruct (run true _ ls) as [st2 out2]. cbn [fst snd length app masks endtoken] in *.
      rewrite length_app in H4. cbn [length] in H4.
      split; [done|]. split; [done|]. split; [|lia].
      etrans; [|exact H3]. by apply prefix_app_r.
Qed.

(** From the start of a stream on, every line read is accounted for: it is
    sent as exactly one event, or it registers exactly one mask and nothing is
    sent.  The gate stays open and no resume token is ever stored. *)
Theorem every_line_is_sent_or_registers_a_mask (fd1 : bool)
    (ls : list (Z * list ascii)) :
  let '(st, sent) := run fd1 reader0 ls in
  (length sent + length (masks st) = length ls)%nat
  /\ enable st = true /\ endtoken st = EmptyString.
Proof.
  destruct (run_accounts fd1 ls reader0 eq_refl) as (H1 & H2 & _ & H4).
  destruct (run fd1 reader0 ls) as [st sent]. cbn [fst snd] in *.
  cbn in H4. split; [lia|]. by split.
Qed.

(** The secondary stream is not scanned for commands: each of its lines is
    sent as one event of kind 2 with the bytes read, whatever they say. *)
Theorem secondary_stream_is_sent_verbatim (ls : list (Z * list ascii)) :
  streamReader false ls
  = (fun '(now, s) => newLine now false (len s) (S_ s)) <$> ls.
Proof.
  unfold streamReader.
  assert (H : run false reader0 ls
              = (reader0, (fun '(now, s) => newLine now false (len s) (S_ s)) <$> ls)).
  { induction ls as [|[now s] ls IH]; [done|].
    cbn [run]. rewrite body_err, IH. reflexivity. }
  by rewrite H.
Qed.

(** The events of the primary stream are plain lines of kind 1 and commands
    of kind -1; a command's size is the length of its line. *)
Theorem primary_stream_event_kinds (now : Z) (st : reader) (s : list ascii) :
  Forall (fun l => (kind l = 1 /\ data l = EmptyString /\ opts l = ∅)
                   \/ (kind l = -1 /\ size l = len s))
         (snd (body true now st s)).
Proof.
  assert (Hc : forall c l, newCommand now (len s) c = Some l ->
                 kind l = -1 /\ size l = len s).
  { intros c l. unfold newCommand.
    destruct (match Opts c with None => _ | Some _ => _ end); [|done].
    by intros [= <-]. }
  unfold body.
  repeat case_match; cbn [snd];
    try (by constructor);
    (constructor; [|by constructor]);
    try (left; done);
    match goal with
    | H : newCommand _ _ _ = Some _ |- _ => right; by apply Hc in H
    end.
Qed.

End Accounting.

(** ** The result of [Map] *)

Section MapResult.
Import ghc.

Lemma keeps_lookup (d : gmap string (list ascii)) (defs : gmap string rule)
    (p : string) (v : any) :
  (p, v) ∈ omap (keeps d) (map_to_list defs)
  <-> exists r, defs !! p = Some r /\ into r (d !! p) = Ok v.
Proof.
  rewrite list_elem_of_omap. split.
  - intros ([p' r] & Hin & Hk). apply elem_of_map_to_list in Hin.
    unfold keeps in Hk. cbn [fst snd] in Hk.
    destruct (into r (d !! p')) eqn:E; [|done]. injection Hk as -> ->.
    by exists r.
  - intros (r & Hr & Hv). exists (p, r). split; [by apply elem_of_map_to_list|].
    unfold keeps. cbn [fst snd]. by rewrite Hv.
Qed.

Lemma keeps_NoDup (d : gmap string (list ascii)) (l : list (string * rule)) :
  NoDup l.*1 -> NoDup (omap (keeps d) l).*1.
Proof.
  induction l as [|[p r] l IH]; intros Hnd; [constructor|].
  cbn [fmap list_fmap fst] in Hnd. apply NoDup_cons in Hnd as [Hp Hnd].
  cbn [omap list_omap]. unfold keeps at 1. cbn [fst snd].
  destruct (into r (d !! p)); [|by apply IH].
  cbn [fmap list_fmap fst]. apply NoDup_cons. split; [|by apply IH].
  intros Hin. apply Hp.
  apply list_elem_of_fmap in Hin as [[p' v'] [-> Hin]].
  apply list_elem_of_omap in Hin as [[p2 r2] [Hin Hk]].
  unfold keeps in Hk. cbn [fst snd] in Hk.
  destruct (into r2 (d !! p2)); [|done]. injection Hk as -> _.
  apply list_elem_of_fmap. by exists (p', r2).
Qed.

(** When [Map] succeeds, its result holds exactly the declared names whose
    rule gives a value, with that value: a name of the line that was not
    declared is not in it, a declared name with a default always is, and a
    declared name without default that the line lacks is not. *)
Theorem Map_holds_what_the_rules_give (o : GHCOptions) (m : gmap string any)
    (Hok : Map o = Ok m) (p : string) (v : any) :
  m !! p = Some v
  <-> exists r, defs o !! p = Some r /\ into r (data o !! p) = Ok v.
Proof.
  unfold Map in Hok.
  destruct (existsb (fails (data o)) (map_to_list (defs o))) eqn:Hex.
  - destruct (MapLoop_err (data o) _ ∅ Hex) as [e He]. congruence.
  - rewrite MapLoop_ok in Hok;
      [|apply NoDup_fst_map_to_list | by apply forallb_not_existsb].
    injection Hok as <-. rewrite (right_id_L ∅ (∪)).
    rewrite <- keeps_lookup, <- elem_of_list_to_map; [done|].
    apply keeps_NoDup, NoDup_fst_map_to_list.
Qed.

(** An instance: the declarations of an annotation on a line with the
    properties [file] and [other]. *)
Lemma Map_holds_what_the_rules_give_witness :
  let o := main.annotationOpts
             (mkOptions {[ "file" := B "a.go"; "other" := B "x" ]} ∅) in
  let m : gmap string any :=
    {[ "file" := VString "a.go"; "line" := VInt 1; "endLine" := VInt 1 ]} in
  m !! "file" = Some (VString "a.go")
  <-> exists r, defs o !! "file" = Some r
                /\ into r (data o !! "file") = Ok (VString "a.go").
Proof.
  cbv zeta. apply Map_holds_what_the_rules_give. vm_compute. reflexivity.
Defined.

Lemma Map_err_of_refused (o : GHCOptions) (p : string) (r : rule) (e : error) :
  defs o !! p = Some r -> into r (data o !! p) = Err e -> e <> errIgnore ->
  exists e', Map o = Err e'.
Proof.
  intros Hr He Hne. apply MapLoop_err, existsb_exists. exists (p, r).
  split; [by apply list_elem_of_In, elem_of_map_to_list|].
  unfold fails. cbn [fst snd]. rewrite He. by destruct e.
Qed.

(** [Map] fails exactly when a declared name is in the line with a value that
    its rule refuses. *)
Theorem Map_fails_on_a_refused_value (o : GHCOptions) :
  (exists e, Map o = Err e)
  <-> exists p r e, defs o !! p = Some r /\ into r (data o !! p) = Err e
                    /\ e <> errIgnore.
Proof.
  unfold Map. split.
  - intros [e He].
    destruct (existsb (fails (data o)) (map_to_list (defs o))) eqn:Hex.
    + apply existsb_exists in Hex as ([p r] & Hin & Hf).
      apply list_elem_of_In, elem_of_map_to_list in Hin.
      unfold fails in Hf. cbn [fst snd] in Hf.
      destruct (into r (data o !! p)) as [v|e'] eqn:E; [done|].
      exists p, r, e'. split; [done|]. split; [done|]. by intros ->.
    + rewrite MapLoop_ok in He;
        [done | apply NoDup_fst_map_to_list | by apply forallb_not_existsb].
  - intros (p & r & e & Hr & He & Hne). by eapply Map_err_of_refused.
Qed.

(** An annotation ([notice], [warning], [error]) with [col], [endColumn],
    [line] or [endLine] given a value that is no integer of at least 1 is not
    sent as a command and is not dropped: the line is sent as a plain line. *)
Theorem refused_annotation_is_sent_as_plain (now : Z) (st : main.reader)
    (s s1 : list ascii) (c : GHC) (o : GHCOptions) (p : string) (v : list ascii)
    (Hon : main.enable st = true)
    (Hparse : PraseGHC s = (s1, Ok c))
    (Hname : Name c = "notice" \/ Name c = "warning" \/ Name c = "error")
    (Hopts : Opts c = Some o)
    (Hp : p = "col" \/ p = "endColumn" \/ p = "line" \/ p = "endLine")
    (Hv : data o !! p = Some v)
    (Hbad : match jsonInt64 v with Some n => n < 1 | None => True end) :
  main.body true now st s = (st, [main.plainEvent true now st s1]).
Proof.
  assert (Hn : exists e, naturalNumOption (Some v) = Err e /\ e <> errIgnore).
  { unfold naturalNumOption. destruct (jsonInt64 v) as [n|]; [|by eexists].
    destruct (Z.ltb_spec n 1); [by eexists | lia]. }
  destruct Hn as (e & He & Hne).
  assert (Hmap : exists e', Map (main.annotationOpts o) = Err e').
  { destruct Hp as [->|[->|[->| ->]]].
    - apply (Map_err_of_refused _ "col" RNaturalNum e); [|cbn [main.annotationOpts declare data]; by rewrite Hv|done].
      cbn [main.annotationOpts declare defs].
      repeat (rewrite lookup_insert_ne by done). by rewrite lookup_insert_eq.
    - apply (Map_err_of_refused _ "endColumn" RNaturalNum e); [|cbn [main.annotationOpts declare data]; by rewrite Hv|done].
      cbn [main.annotationOpts declare defs].
      repeat (rewrite lookup_insert_ne by done). by rewrite lookup_insert_eq.
    - apply (Map_err_of_refused _ "line" (RNaturalNumWithDefault 1) e); [|cbn [main.annotationOpts declare data]; by rewrite Hv|done].
      cbn [main.annotationOpts declare defs].
      repeat (rewrite lookup_insert_ne by done). by rewrite lookup_insert_eq.
    - apply (Map_err_of_refused _ "endLine" (RNaturalNumWithDefault 1) e); [|cbn [main.annotationOpts declare data]; by rewrite Hv|done].
      cbn [main.annotationOpts declare defs].
      repeat (rewrite lookup_insert_ne by done). by rewrite lookup_insert_eq. }
  destruct Hmap as [e' He'].
  unfold main.body. rewrite Hon, Hparse. cbn [andb].
  assert (Hnew : forall d, main.newCommand now (main.len s)
            (main.withOpts (main.withData c d) main.annotationOpts) = None).
  { intros d. unfold main.newCommand, main.withOpts, main.withData.
    cbn [Opts Name Data]. rewrite Hopts. cbn [fmap option_fmap option_map].
    by rewrite He'. }
  destruct Hname as [Hn|[Hn|Hn]]; rewrite Hn; cbn; by rewrite Hnew.
Qed.

(** An instance: an [error] annotation with [line=0]. *)
Lemma refused_annotation_is_sent_as_plain_witness :
  main.body true 5 main.reader0 (B "::error line=0::bad")
  = (main.reader0, [main.newLine 5 true 19 "::error line=0::bad"]).
Proof.
  apply (refused_annotation_is_sent_as_plain 5 main.reader0
           (B "::error line=0::bad") (B "::error line=0::bad")
           (mkGHC "error" (B "bad") (Some (mkOptions {[ "line" := B "0" ]} ∅)))
           (mkOptions {[ "line" := B "0" ]} ∅) "line" (B "0"));
    first [ vm_compute; reflexivity | by right; right | by right; right; left
          | vm_compute; lia | exact I ].
Defined.

End MapResult.

(** ** The parser on well-formed lines *)

Section Grammar.
Import ghc.

Lemma propsLoop_length (n : nat) : forall s j k val key opt,
  (k <= j)%nat -> length (arrayOf (propsLoop n s j k val key opt)) = length s.
Proof.
  induction n as [|n IH]; intros s j k val key opt Hkj; cbn [propsLoop]; [done|].
  destruct (s !! j) as [c|] eqn:Hj; [|done].
  apply lookup_lt_Some in Hj.
  assert (Hst : length (fst (storeProp s k j key opt)) = length s).
  { unfold storeProp. cbn [fst].
    rewrite !length_app, length_take, length_drop, unescapeProperty_mem_length,
      sub_length by lia. lia. }
  destruct (beq c "=").
  { destruct val; [done | apply IH; lia]. }
  destruct (beq c ",").
  { destruct val; cbn [negb]; [|done].
    destruct (storeProp s k j key opt) as [s1 opt1]. cbn [fst] in Hst.
    rewrite IH by lia. done. }
  destruct (beq c ":"); [|apply IH; lia].
  destruct (negb (isColon (s !! S j))) eqn:Hc; [done|].
  apply isColon_lookup in Hc.
  destruct val.
  - destruct (storeProp s k j key opt) as [s1 opt1]. cbn [fst arrayOf] in *.
    rewrite done_length; [done | lia].
  - cbn [arrayOf]. apply done_length. lia.
Qed.

Lemma nameLoop_length (n : nat) : forall s i opt,
  length (fst (nameLoop n s i opt)) = length s.
Proof.
  induction n as [|n IH]; intros s i opt; cbn [nameLoop]; [done|].
  destruct (s !! i) as [c|]; [|done].
  destruct (beq c ":").
  { destruct (negb (isColon (s !! S i))) eqn:Hc; [done|].
    apply isColon_lookup in Hc. cbn [fst]. apply done_length. lia. }
  destruct (beq c " "); [|apply IH].
  pose proof (propsLoop_length (length s) s (S i) (S i) false EmptyString opt
                (Nat.le_refl _)) as Hp.
  destruct (propsLoop _ _ _ _ _ _ _) as [s1|s1 opt1 d|s1 opt1]; cbn [arrayOf fst] in *;
    [done..|]. by rewrite IH.
Qed.

(** [PraseGHC] rewrites escapes inside the line and never changes how long
    the line is; what lies before the trimmed part stays as it was. *)
Theorem PraseGHC_keeps_the_length (line : list ascii) :
  length (fst (PraseGHC line)) = length line
  /\ take (TrimLeftSpace_off line) (fst (PraseGHC line))
     = take (TrimLeftSpace_off line) line.
Proof.
  unfold PraseGHC.
  assert (Hlen : length (fst (parse (TrimLeftSpace line)))
                 = length (TrimLeftSpace line)).
  { unfold parse. destruct (_ || _ || _); [done | apply nameLoop_length]. }
  assert (Hoff : (TrimLeftSpace_off line <= length line)%nat).
  { clear. induction line as [|c line IH]; [done|].
    cbn [TrimLeftSpace_off].
    destruct (utf8.RuneSelf <=? b2z c); [lia|].
    destruct (asciiSpace c); cbn [length]; lia. }
  destruct (parse (TrimLeftSpace line)) as [s' r]. cbn [fst] in *.
  split.
  - pose proof (f_equal length (TrimLeftSpace_region line)) as H.
    rewrite !length_app in H |- *. lia.
  - rewrite take_app_length'; [done|]. rewrite length_take. lia.
Qed.

Lemma asciiSpace_low (c : ascii) : asciiSpace c = true -> b2z c < utf8.RuneSelf.
Proof.
  unfold asciiSpace, beq. intros H.
  repeat (apply orb_true_iff in H as [H|H]);
    apply Ascii.eqb_eq in H; subst; reflexivity.
Qed.

Lemma TrimLeftSpace_skips (ws l : list ascii) (c : ascii) :
  Forall (fun x => asciiSpace x = true) ws ->
  asciiSpace c = false -> b2z c < utf8.RuneSelf ->
  TrimLeftSpace (ws ++ c :: l) = c :: l
  /\ TrimLeftSpace_off (ws ++ c :: l) = length ws.
Proof.
  intros Hws Hc Hlow. induction Hws as [|x ws Hx _ [IH1 IH2]].
  - cbn [app TrimLeftSpace TrimLeftSpace_off length].
    destruct (Z.leb_spec utf8.RuneSelf (b2z c)); [lia|]. by rewrite Hc.
  - cbn [app TrimLeftSpace TrimLeftSpace_off length].
    pose proof (asciiSpace_low x Hx).
    destruct (Z.leb_spec utf8.RuneSelf (b2z x)); [lia|]. rewrite Hx. by rewrite IH1, IH2.
Qed.

Lemma lookup_next (hd rest : list ascii) (c c' : ascii) :
  (hd ++ c :: c' :: rest) !! S (length hd) = Some c'.
Proof.
  rewrite (cons_middle c), app_assoc.
  replace (S (length hd)) with (length (hd ++ [c])) by (rewrite length_app; cbn; lia).
  apply list_lookup_middle. done.
Qed.

Lemma nameLoop_name (d : list ascii) (name : list ascii) : forall n hd opt,
  Forall (fun c => endsName c = false) name -> (length name < n)%nat ->
  (2 <= length hd)%nat ->
  nameLoop n (hd ++ name ++ B "::" ++ d) (length hd) opt
  = let s1 := hd ++ name ++ B "::" ++ unescapeData_mem d in
    (s1, Ok (mkGHC (S_ (drop 2 (hd ++ name))) (unescapeData d)
                   (Some (readOpts s1 opt)))).
Proof.
  induction name as [|c name IH]; intros n hd opt Hname Hn Hhd.
  - destruct n as [|n]; [lia|]. cbn [nameLoop app].
    change (B "::" ++ d) with (":"%char :: ":"%char :: d).
    rewrite list_lookup_middle by done.
    change (beq ":" ":") with true. cbv iota.
    rewrite lookup_next. cbn [isColon]. change (beq ":" ":") with true. cbn [negb].
    assert (Hs : hd ++ ":"%char :: ":"%char :: d = (hd ++ B "::") ++ d)
      by (by rewrite <- app_assoc).
    assert (Hl : (length hd + 2)%nat = length (hd ++ B "::"))
      by (rewrite length_app; cbn; lia).
    rewrite Hs, Hl, drop_app_length, take_app_length.
    assert (Hsub : sub ((hd ++ B "::") ++ d) 2 (length hd) = drop 2 hd).
    { unfold sub. rewrite <- app_assoc, drop_app_le by lia.
      rewrite take_app_length'; [done|]. rewrite length_drop. lia. }
    rewrite Hsub, app_nil_r. cbv zeta. by rewrite <- !app_assoc.
  - apply Forall_cons in Hname as [Hc Hname].
    destruct n as [|n]; [cbn in Hn; lia|]. cbn [nameLoop app].
    rewrite list_lookup_middle by done.
    unfold endsName in Hc. apply orb_false_iff in Hc as [Hc1 Hc2].
    rewrite Hc1, Hc2.
    specialize (IH n (hd ++ [c]) opt Hname ltac:(cbn in Hn; lia)).
    rewrite length_app in IH. cbn [length] in IH.
    replace (length hd + 1)%nat with (S (length hd)) in IH by lia.
    rewrite <- !app_assoc in IH. cbn [app] in IH. apply IH. lia.
Qed.

(** A line [::name::data], after any ASCII white space, with a name that
    holds neither colon nor space and with name or data not empty, parses to
    the command with that name, the data unescaped and no properties. *)
Theorem PraseGHC_name_and_data (ws name d : list ascii)
    (Hws : Forall (fun x => asciiSpace x = true) ws)
    (Hname : Forall (fun c => endsName c = false) name)
    (Hlong : name <> [] \/ d <> []) :
  PraseGHC (ws ++ B "::" ++ name ++ B "::" ++ d)
  = (ws ++ B "::" ++ name ++ B "::" ++ unescapeData_mem d,
     Ok (mkGHC (S_ name) (unescapeData d) (Some (mkOptions ∅ ∅)))).
Proof.
  unfold PraseGHC.
  change (B "::" ++ name ++ B "::" ++ d)
    with (":"%char :: ":"%char :: name ++ B "::" ++ d).
  destruct (TrimLeftSpace_skips ws (":"%char :: name ++ B "::" ++ d) ":" Hws
              eq_refl eq_refl) as [-> ->].
  change (":"%char :: ":"%char :: name ++ B "::" ++ d)
    with (B "::" ++ name ++ B "::" ++ d).
  set (s := B "::" ++ name ++ B "::" ++ d).
  assert (Hlen : (4 < length s)%nat).
  { subst s. rewrite !length_app. cbn [B list_ascii_of_string length].
    destruct Hlong as [H|H]; [destruct name | destruct d]; cbn [length]; (done || lia). }
  assert (Hparse : parse s = nameLoop (length s) s 2 ∅).
  { unfold parse. destruct (Nat.leb_spec (length s) 4); [lia|]. by subst s. }
  rewrite Hparse. subst s.
  change (nameLoop ?n (B "::" ++ name ++ B "::" ++ d) 2 ∅)
    with (nameLoop n (B "::" ++ name ++ B "::" ++ d) (length (B "::")) ∅).
  rewrite (nameLoop_name d name _ (B "::") ∅ Hname).
  - cbv zeta. unfold readOpts. rewrite fmap_empty.
    rewrite take_app_length, <- drop_drop, drop_app_length, drop_all.
    by rewrite app_nil_r.
  - rewrite !length_app. change (length (B "::")) with 2%nat. lia.
  - done.
Qed.

(** An instance: a tab before [::group::Build %25]. *)
Lemma PraseGHC_name_and_data_witness :
  PraseGHC ([TAB] ++ B "::" ++ B "group" ++ B "::" ++ B "Build %25")
  = ([TAB] ++ B "::" ++ B "group" ++ B "::" ++ unescapeData_mem (B "Build %25"),
     Ok (mkGHC "group" (unescapeData (B "Build %25")) (Some (mkOptions ∅ ∅)))).
Proof.
  apply (PraseGHC_name_and_data [TAB] (B "group") (B "Build %25")).
  - by repeat constructor.
  - by repeat constructor.
  - by left.
Defined.

End Grammar.

(** ** A line with one property *)

Section OneProperty.
Import ghc.

Lemma nameLoop_skip (name : list ascii) : forall n hd rest opt,
  Forall (fun c => endsName c = false) name -> (length name <= n)%nat ->
  nameLoop n (hd ++ name ++ rest) (length hd) opt
  = nameLoop (n - length name) (hd ++ name ++ rest) (length (hd ++ name)) opt.
Proof.
  induction name as [|c name IH]; intros n hd rest opt Hname Hn.
  - cbn [app length]. by rewrite app_nil_r, Nat.sub_0_r.
  - apply Forall_cons in Hname as [Hc Hname].
    destruct n as [|n]; [cbn in Hn; lia|]. cbn [nameLoop app].
    rewrite list_lookup_middle by done.
    unfold endsName in Hc. apply orb_false_iff in Hc as [Hc1 Hc2].
    rewrite Hc1, Hc2.
    specialize (IH n (hd ++ [c]) rest opt Hname ltac:(cbn in Hn; lia)).
    rewrite length_app in IH. cbn [length] in IH.
    replace (length hd + 1)%nat with (S (length hd)) in IH by lia.
    rewrite <- !app_assoc in IH. cbn [app] in IH. rewrite IH.
    cbn [length Nat.sub]. f_equal; rewrite !length_app; cbn [length]; lia.
Qed.

Lemma propsLoop_skip (w : list ascii) : forall n hd rest k val key opt,
  Forall (fun c => endsProperty c = false) w -> (length w <= n)%nat ->
  propsLoop n (hd ++ w ++ rest) (length hd) k val key opt
  = propsLoop (n - length w) (hd ++ w ++ rest) (length (hd ++ w)) k val key opt.
Proof.
  induction w as [|c w IH]; intros n hd rest k val key opt Hw Hn.
  - cbn [app length]. by rewrite app_nil_r, Nat.sub_0_r.
  - apply Forall_cons in Hw as [Hc Hw].
    destruct n as [|n]; [cbn in Hn; lia|]. cbn [propsLoop app].
    rewrite list_lookup_middle by done.
    unfold endsProperty in Hc. apply orb_false_iff in Hc as [Hc Hc3].
    apply orb_false_iff in Hc as [Hc1 Hc2].
    rewrite Hc1, Hc2, Hc3.
    specialize (IH n (hd ++ [c]) rest k val key opt Hw ltac:(cbn in Hn; lia)).
    rewrite length_app in IH. cbn [length] in IH.
    replace (length hd + 1)%nat with (S (length hd)) in IH by lia.
    rewrite <- !app_assoc in IH. cbn [app] in IH. rewrite IH.
    cbn [length Nat.sub]. f_equal; rewrite !length_app; cbn [length]; lia.
Qed.

Lemma sub_middle (a b c : list ascii) :
  sub (a ++ b ++ c) (length a) (length (a ++ b)) = b.
Proof.
  unfold sub. rewrite drop_app_length, length_app.
  replace (length a + length b - length a)%nat with (length b) by lia.
  by rewrite take_app_length.
Qed.

Lemma unescapeProperty_mem_prefix (v prop : list ascii) :
  unescapeProperty v = Some prop ->
  take (length prop) (unescapeProperty_mem v) = prop.
Proof.
  unfold unescapeProperty, unescapeProperty_mem.
  destruct v as [|c v]; [done|].
  destruct (unescapeLoop _ _ _ _ _) as [r behind]. cbn [fst].
  intros [= <-]. by rewrite take_app_length.
Qed.

(** The inner loop on [key=value::data] behind [hd]. *)
Lemma propsLoop_one (hd key value d : list ascii) (n : nat) :
  Forall (fun c => endsProperty c = false) key ->
  Forall (fun c => endsProperty c = false) value ->
  value <> [] ->
  (length key + length value + 2 <= n)%nat ->
  propsLoop n (hd ++ key ++ B "=" ++ value ++ B "::" ++ d)
    (length hd) (length hd) false EmptyString ∅
  = PDone (hd ++ key ++ B "=" ++ unescapeProperty_mem value ++ B "::"
              ++ unescapeData_mem d)
          {[ S_ key := (length (hd ++ key ++ B "="),
                        length (spec.decode spec.propertyEscapes value)) ]}
          (unescapeData d).
Proof.
  intros Hkey Hvalue Hne Hn.
  set (s := hd ++ key ++ B "=" ++ value ++ B "::" ++ d).
  (* the key *)
  unfold s at 1. rewrite propsLoop_skip by (done || lia). fold s.
  destruct (n - length key)%nat as [|n1] eqn:En1; [lia|].
  cbn [propsLoop].
  assert (Heq : s !! length (hd ++ key) = Some "="%char).
  { unfold s. rewrite app_assoc. by apply list_lookup_middle. }
  rewrite Heq. change (beq "=" "=") with true. cbv iota.
  assert (Hsub : sub s (length hd) (length (hd ++ key)) = key).
  { unfold s. apply sub_middle. }
  rewrite Hsub.
  (* the value *)
  set (hd2 := hd ++ key ++ B "=").
  assert (Hs2 : s = hd2 ++ value ++ B "::" ++ d).
  { unfold s, hd2. by rewrite <- !app_assoc. }
  assert (Hl2 : S (length (hd ++ key)) = length hd2).
  { unfold hd2. rewrite !length_app. cbn. lia. }
  rewrite Hl2, Hs2. rewrite propsLoop_skip by (done || lia).
  destruct (n1 - length value)%nat as [|n2] eqn:En2; [lia|].
  cbn [propsLoop].
  assert (Hc1 : (hd2 ++ value ++ B "::" ++ d) !! length (hd2 ++ value) = Some ":"%char).
  { rewrite app_assoc. by apply list_lookup_middle. }
  assert (Hc2 : (hd2 ++ value ++ B "::" ++ d) !! S (length (hd2 ++ value))
                = Some ":"%char).
  { rewrite app_assoc. apply lookup_next. }
  rewrite Hc1, Hc2.
  change (beq ":" "=") with false. change (beq ":" ",") with false.
  change (beq ":" ":") with true. cbv iota. cbn [isColon].
  change (beq ":" ":") with true. cbn [negb]. cbv iota.
  unfold storeProp. rewrite sub_middle.
  rewrite unescapeProperty_decode.
  destruct value as [|v0 value]; [done|]. cbv iota.
  set (val := v0 :: value) in *.
  rewrite take_app_length.
  assert (Hdropj : drop (length (hd2 ++ val)) (hd2 ++ val ++ B "::" ++ d) = B "::" ++ d).
  { rewrite app_assoc. apply drop_app_length. }
  rewrite Hdropj.
  assert (Hlenm : length (hd2 ++ unescapeProperty_mem val) = length (hd2 ++ val)).
  { by rewrite !length_app, unescapeProperty_mem_length. }
  assert (Hdrop2 : drop (length (hd2 ++ val) + 2)
                     (hd2 ++ unescapeProperty_mem val ++ B "::" ++ d) = d).
  { rewrite <- Hlenm.
    replace (hd2 ++ unescapeProperty_mem val ++ B "::" ++ d)
      with ((hd2 ++ unescapeProperty_mem val ++ B "::") ++ d)
      by (by rewrite <- !app_assoc).
    apply drop_app_exact. rewrite !length_app. cbn. lia. }
  assert (Htake2 : take (length (hd2 ++ val) + 2)
                     (hd2 ++ unescapeProperty_mem val ++ B "::" ++ d)
                   = hd2 ++ unescapeProperty_mem val ++ B "::").
  { rewrite <- Hlenm.
    replace (hd2 ++ unescapeProperty_mem val ++ B "::" ++ d)
      with ((hd2 ++ unescapeProperty_mem val ++ B "::") ++ d)
      by (by rewrite <- !app_assoc).
    rewrite take_app_length'; [done|]. rewrite !length_app. cbn. lia. }
  rewrite Hdrop2, Htake2. unfold hd2. rewrite <- !app_assoc.
  by rewrite insert_empty.
Qed.

(** A line [::name key=value::data], after any ASCII white space: the name
    holds neither colon nor space, key and value hold none of [=], [,], [:],
    and the value is not empty.  It parses to the command with that name, the
    data unescaped, and the one property [key] with the value unescaped. *)
Theorem PraseGHC_one_property (ws name key value d : list ascii)
    (Hws : Forall (fun x => asciiSpace x = true) ws)
    (Hname : Forall (fun c => endsName c = false) name)
    (Hkey : Forall (fun c => endsProperty c = false) key)
    (Hvalue : Forall (fun c => endsProperty c = false) value)
    (Hne : value <> []) :
  snd (PraseGHC (ws ++ B "::" ++ name ++ B " " ++ key ++ B "=" ++ value
                    ++ B "::" ++ d))
  = Ok (mkGHC (S_ name) (unescapeData d)
          (Some (mkOptions
                   {[ S_ key := spec.decode spec.propertyEscapes value ]} ∅))).
Proof.
  unfold PraseGHC.
  set (tl := name ++ B " " ++ key ++ B "=" ++ value ++ B "::" ++ d).
  change (B "::" ++ tl) with (":"%char :: ":"%char :: tl).
  destruct (TrimLeftSpace_skips ws (":"%char :: tl) ":" Hws eq_refl eq_refl) as [-> ->].
  change (":"%char :: ":"%char :: tl) with (B "::" ++ tl).
  set (s := B "::" ++ tl).
  assert (Hslen : length s
            = (2 + length name + 1 + length key + 1 + length value + 2 + length d)%nat).
  { unfold s, tl. rewrite !length_app. cbn [B list_ascii_of_string length]. lia. }
  assert (Hvl : (0 < length value)%nat) by (destruct value; [done | cbn; lia]).
  assert (Hparse : parse s = nameLoop (length s) s 2 ∅).
  { unfold parse. destruct (Nat.leb_spec (length s) 4); [lia|]. by unfold s. }
  rewrite Hparse.
  (* the name *)
  change (nameLoop (length s) s 2 ∅) with (nameLoop (length s) s (length (B "::")) ∅).
  unfold s at 2, tl. rewrite nameLoop_skip by (done || lia). fold tl. fold s.
  destruct (length s - length name)%nat as [|n1] eqn:En1; [lia|].
  cbn [nameLoop].
  assert (Hsp : s !! length (B "::" ++ name) = Some " "%char).
  { unfold s, tl. rewrite app_assoc. by apply list_lookup_middle. }
  rewrite Hsp. change (beq " " ":") with false. change (beq " " " ") with true.
  cbv iota.
  set (hd := B "::" ++ name ++ B " ").
  assert (Hs : s = hd ++ key ++ B "=" ++ value ++ B "::" ++ d).
  { unfold s, tl, hd. by rewrite <- !app_assoc. }
  assert (Hhd : S (length (B "::" ++ name)) = length hd).
  { unfold hd. rewrite !length_app. cbn. lia. }
  assert (Hnm : sub s 2 (length (B "::" ++ name)) = name).
  { unfold s, tl. apply (sub_middle (B "::") name). }
  rewrite Hnm, Hhd. rewrite Hs at 1 2.
  rewrite propsLoop_one by (done || (rewrite <- Hs; lia)).
  cbn [snd]. f_equal. f_equal. f_equal.
  unfold readOpts. rewrite map_fmap_singleton. f_equal. f_equal.
  unfold readSlice. cbn [fst snd]. unfold sub.
  replace (length (hd ++ key ++ B "=")
           + length (spec.decode spec.propertyEscapes value)
           - length (hd ++ key ++ B "="))%nat
    with (length (spec.decode spec.propertyEscapes value)) by lia.
  replace (hd ++ key ++ B "=" ++ unescapeProperty_mem value ++ B "::"
             ++ unescapeData_mem d)
    with ((hd ++ key ++ B "=") ++ unescapeProperty_mem value ++ B "::"
             ++ unescapeData_mem d) by (by rewrite <- !app_assoc).
  rewrite drop_app_length.
  pose proof (unescapeProperty_mem_prefix value
                (spec.decode spec.propertyEscapes value)) as Hpre.
  rewrite unescapeProperty_decode in Hpre.
  destruct value as [|v0 value]; [done|]. specialize (Hpre eq_refl).
  rewrite take_app_le; [exact Hpre|].
  rewrite unescapeProperty_mem_length. apply decode_length.
Qed.

(** An instance: [::warning file=a%2Cb.go::careful]. *)
Lemma PraseGHC_one_property_witness :
  snd (PraseGHC ([] ++ B "::" ++ B "warning" ++ B " " ++ B "file" ++ B "="
                    ++ B "a%2Cb.go" ++ B "::" ++ B "careful"))
  = Ok (mkGHC "warning" (unescapeData (B "careful"))
          (Some (mkOptions
                   {[ "file" := spec.decode spec.propertyEscapes (B "a%2Cb.go") ]} ∅))).
Proof.
  apply (PraseGHC_one_property [] (B "warning") (B "file") (B "a%2Cb.go") (B "careful"));
    by repeat constructor.
Defined.

End OneProperty.

(** ** Request ids and the table of waiting calls *)

Section Ids.
Import sdb calls.

Lemma next_id_facts (c : Z) : 0 <= c < 2 ^ 63 ->
  1 <= next c < 2 ^ 63
  /\ (c < 2 ^ 63 - 1 -> next c = c + 1)
  /\ (c = 2 ^ 63 - 1 -> next c = 1).
Proof.
  intros Hc. unfold next, wrap64.
  destruct (Z.eq_dec c (2 ^ 63 - 1)) as [->|Hne].
  - vm_compute. repeat split; congruence.
  - assert (Hw : (c + 1 + 2 ^ 63) mod 2 ^ 64 - 2 ^ 63 = c + 1).
    { rewrite Z.mod_small by lia. lia. }
    rewrite Hw. destruct (Z.ltb_spec (c + 1) 0); [lia|].
    repeat split; lia.
Qed.

(** [serial.next], for a counter that is not negative: the id is positive;
    it is the counter plus one, except at the largest [int], where the
    counting starts again at 1. *)
Theorem next_id_is_positive (c : Z) (Hc : 0 <= c < 2 ^ 63) :
  1 <= next c < 2 ^ 63
  /\ (c < 2 ^ 63 - 1 -> next c = c + 1)
  /\ (c = 2 ^ 63 - 1 -> next c = 1).
Proof. by apply next_id_facts. Qed.

(** An instance: the id after the largest one. *)
Lemma next_id_is_positive_witness : next (2 ^ 63 - 1) = 1.
Proof.
  apply (next_id_is_positive (2 ^ 63 - 1)); [lia | reflexivity].
Defined.

(** [rpc] leaves the table of waiting calls as it found it, whatever it
    returns: the payload, the error of the response, of the closed channel,
    of the timeout, of the write, of the id in use, or of the closing
    connection. *)
Theorem rpc_leaves_no_registration (s : SDB) (m : string) (e : option string)
    (w : waited) :
  respChans (fst (rpc s m e w)) = respChans s.
Proof.
  unfold rpc. destruct (closing s); [done|].
  unfold setChan. cbn [respChans id closing CloseErr].
  destruct (respChans s !! next (id s)) eqn:Hfree; [done|].
  destruct e; cbn [fst delChan respChans]; by apply delete_insert_id.
Qed.

Lemma rpc_registered (s : SDB) (c : call) :
  closing s = false -> respChans s !! next (id s) = None ->
  rpc s (method c) (wr c) (end_ c)
  = (mkSDB (next (id s)) false (CloseErr s) (respChans s),
     registered (next (id s)) c).
Proof.
  intros Hopen Hfree. unfold rpc, setChan, registered. rewrite Hopen.
  cbn [respChans id closing CloseErr]. rewrite Hfree.
  destruct (wr c); unfold delChan; cbn [respChans id closing CloseErr];
    by rewrite delete_insert_id.
Qed.

(** Calls made one after the other on an open connection whose table is
    empty, as it is after [Connect]: none is refused because its id is in
    use; the k-th call is registered under the k-th id after the counter;
    and the table is empty again at the end. *)
Theorem calls_in_sequence_are_numbered (cs : list call) : forall (s : SDB)
    (Hopen : closing s = false)
    (Hempty : respChans s = ∅)
    (Hid : 0 <= id s)
    (Hroom : id s + Z.of_nat (length cs) < 2 ^ 63),
  snd (run s cs) = numbered (id s) cs
  /\ id (fst (run s cs)) = id s + Z.of_nat (length cs)
  /\ respChans (fst (run s cs)) = ∅.
Proof.
  induction cs as [|c cs IH]; intros s Hopen Hempty Hid Hroom.
  - cbn. repeat split; [lia | done].
  - cbn [length] in Hroom. cbn [run numbered].
    assert (Hnext : next (id s) = id s + 1).
    { apply (next_id_facts (id s)); lia. }
    rewrite rpc_registered by (done || (rewrite Hempty; apply lookup_empty)).
    rewrite Hnext.
    set (s1 := mkSDB (id s + 1) false (CloseErr s) (respChans s)).
    destruct (IH s1) as (Ho & Hi & Ht);
      [done | done | unfold s1; cbn [id]; lia | unfold s1; cbn [id]; lia |].
    destruct (run s1 cs) as [s2 os]. cbn [fst snd] in *.
    split; [by rewrite Ho|]. split; [|done]. rewrite Hi. unfold s1. cbn [id length]. lia.
Qed.

(** An instance: the sign-in and a query that times out, on a fresh
    connection. *)
Lemma calls_in_sequence_are_numbered_witness :
  snd (run (mkSDB 0 false None ∅)
         [mkCall "signin" None (Received (mkResponse 1 None None));
          mkCall "query" None TimedOut])
  = [Payload None;
     Failed (Some "'query' rpc timed out after 5 secconds")]
  /\ id (fst (run (mkSDB 0 false None ∅)
         [mkCall "signin" None (Received (mkResponse 1 None None));
          mkCall "query" None TimedOut])) = 2.
Proof.
  destruct (calls_in_sequence_are_numbered
              [mkCall "signin" None (Received (mkResponse 1 None None));
               mkCall "query" None TimedOut]
              (mkSDB 0 false None ∅) eq_refl eq_refl) as (Ho & Hi & _);
    [cbn; lia | cbn; lia |].
  split; [exact Ho | exact Hi].
Defined.

End Ids.

(** ** Quoting identifiers and record ids *)

Section Quoting.
Import quote.

Lemma escapeStartsNumericFrom_spec (l r e : bytes) (post : bytes) :
  forall (n : nat) (pre : bytes),
  (length post <= n)%nat ->
  forallb wordByte pre = true ->
  (pre <> [] -> headOK pre = true) ->
  escapeStartsNumericFrom n (pre ++ post) l r e (length pre)
  = if headOK (pre ++ post) && forallb wordByte post then pre ++ post
    else escape (pre ++ post) l r e.
Proof.
  induction post as [|c post IH]; intros n pre Hn Hpre Hhd.
  - rewrite app_nil_r. cbn [forallb]. rewrite andb_true_r.
    assert (Hok : headOK pre = true).
    { destruct pre; [done|]. by apply Hhd. }
    rewrite Hok.
    destruct n; [done|]. cbn [escapeStartsNumericFrom].
    by rewrite lookup_ge_None_2.
  - destruct n as [|n]; [cbn in Hn; lia|]. cbn [escapeStartsNumericFrom].
    rewrite list_lookup_middle by done. cbv zeta.
    cbn [forallb]. fold (digitByte c).
    change (isAsciiAlphaNumeric (b2z c) || (b2z c =? underscore))
      with (wordByte c).
    destruct pre as [|p pre].
    + cbn [length app headOK]. change (0 <=? 0)%nat with true. cbn [andb].
      destruct (digitByte c) eqn:Hd; [done|]. cbn [negb andb].
      destruct (wordByte c) eqn:Hw; [|done]. cbn [negb andb].
      specialize (IH n [c] ltac:(cbn in Hn; lia)).
      cbn [length app forallb headOK] in IH. rewrite Hd, Hw in IH.
      by apply IH.
    + cbn [length]. change (S (length pre) <=? 0)%nat with false. cbn [andb].
      specialize (Hhd ltac:(done)). cbn [headOK] in Hhd.
      cbn [app headOK]. rewrite Hhd. cbn [andb].
      destruct (wordByte c) eqn:Hw; [|done]. cbn [negb andb].
      specialize (IH n ((p :: pre) ++ [c]) ltac:(cbn in Hn; lia)).
      rewrite length_app in IH. cbn [length] in IH.
      replace (S (length pre) + 1)%nat with (S (S (length pre))) in IH by lia.
      rewrite <- app_assoc in IH. cbn [app headOK] in IH. rewrite Hhd in IH.
      cbn [andb] in IH. apply IH; [|done].
      change (p :: pre ++ [c]) with ((p :: pre) ++ [c]).
      rewrite forallb_app. cbn [forallb] in *. by rewrite Hpre, Hw.
Qed.

(** [QuoteIdent] returns an identifier as it is exactly when it is not
    empty, holds only ASCII letters, digits and underscores, and does not
    start with a digit; any other one it puts between backticks, with a
    backslash before each backtick of its own. *)
Theorem QuoteIdent_bare_or_quoted (ident : bytes) :
  QuoteIdent ident
  = if bareIdent ident then ident
    else backtick ++ gobytes.ReplaceAll ident backtick backtickEsc ++ backtick.
Proof.
  destruct ident as [|c ident]; [done|].
  unfold QuoteIdent, escapeStartsNumeric.
  pose proof (escapeStartsNumericFrom_spec backtick backtick backtickEsc
                (c :: ident) (length (c :: ident)) [] ltac:(lia) eq_refl
                ltac:(done)) as H.
  cbn [app length] in H. cbn [length]. rewrite H. done.
Qed.

Lemma escapeFullNumericFrom_spec (l r e : bytes) (post : bytes) :
  forall (n : nat) (pre : bytes),
  (length post <= n)%nat ->
  forallb wordByte pre = true ->
  escapeFullNumericFrom n (pre ++ post) l r e (length pre)
    (forallb digitByte pre)
  = if forallb wordByte post && negb (forallb digitByte (pre ++ post))
    then pre ++ post
    else escape (pre ++ post) l r e.
Proof.
  induction post as [|c post IH]; intros n pre Hn Hpre.
  - rewrite app_nil_r. cbn [forallb andb].
    assert (Hend : (if forallb digitByte pre then escape pre l r e else pre)
                   = if negb (forallb digitByte pre) then pre
                     else escape pre l r e)
      by (by destruct (forallb digitByte pre)).
    destruct n; cbn [escapeFullNumericFrom]; [done|].
    by rewrite lookup_ge_None_2.
  - destruct n as [|n]; [cbn in Hn; lia|]. cbn [escapeFullNumericFrom].
    rewrite list_lookup_middle by done. cbv zeta.
    cbn [forallb]. fold (digitByte c).
    change (isAsciiAlphaNumeric (b2z c) || (b2z c =? underscore))
      with (wordByte c).
    destruct (wordByte c) eqn:Hw; [|done]. cbn [negb andb].
    specialize (IH n (pre ++ [c]) ltac:(cbn in Hn; lia)).
    rewrite length_app in IH. cbn [length] in IH.
    replace (length pre + 1)%nat with (S (length pre)) in IH by lia.
    rewrite <- app_assoc in IH. cbn [app] in IH.
    assert (Hd : forallb digitByte (pre ++ [c])
                 = forallb digitByte pre && digitByte c).
    { rewrite forallb_app. cbn [forallb]. by rewrite andb_true_r. }
    rewrite Hd in IH.
    assert (Hnum : (if forallb digitByte pre && negb (digitByte c) then false
                    else forallb digitByte pre)
                   = forallb digitByte pre && digitByte c)
      by (by destruct (forallb digitByte pre), (digitByte c)).
    rewrite Hnum. apply IH.
    rewrite forallb_app. cbn [forallb]. by rewrite Hpre, Hw.
Qed.

(** [QuoteRid] returns a record id as it is exactly when it holds only ASCII
    letters, digits and underscores and not digits alone; any other one,
    the empty one too, it puts between the angle brackets, with a backslash
    before each closing bracket of its own. *)
Theorem QuoteRid_bare_or_quoted (rid : bytes) :
  QuoteRid rid
  = if bareRid rid then rid
    else bracketL ++ gobytes.ReplaceAll rid bracketR bracketEsc ++ bracketR.
Proof.
  destruct rid as [|c rid]; [done|].
  unfold QuoteRid, escapeFullNumeric, bareRid.
  pose proof (escapeFullNumericFrom_spec bracketL bracketR bracketEsc
                (c :: rid) (length (c :: rid)) [] ltac:(lia) eq_refl) as H.
  cbn [app length] in H. cbn [length].
  change (forallb digitByte []) with true in H. by rewrite H.
Qed.

Lemma replace_backticks_escaped (n : nat) : forall (s : bytes) (prev : byte),
  backticksEscaped prev (gobytes.replaceNonEmpty n s backtick backtickEsc) = true
  \/ (length s > n)%nat.
Proof.
  induction n as [|n IH]; intros s prev.
  - destruct s; [by left | right; cbn; lia].
  - destruct s as [|c s]; [by left|].
    cbn [gobytes.replaceNonEmpty backtick gobytes.HasPrefix].
    assert (Hnil : gobytes.HasPrefix s [] = true) by (by destruct s).
    rewrite Hnil, andb_true_r. cbn [length drop]. rewrite ?drop_0.
    destruct (beq "`" c) eqn:Hc.
    + apply Ascii.eqb_eq in Hc as <-.
      destruct (IH s "`"%char) as [H|H]; [left | right; cbn; lia].
      cbn [backtickEsc app backticksEscaped].
      change (beq "\" "`") with false. change (beq "\" "\") with true.
      change (beq "`" "`") with true. cbn [negb orb andb]. exact H.
    + destruct (IH s c) as [H|H]; [left | right; cbn; lia].
      cbn [backticksEscaped]. unfold beq in *.
      rewrite Ascii.eqb_sym, Hc. cbn [negb orb andb]. exact H.
Qed.

(** In an identifier that [QuoteIdent] quotes, every backtick between the
    two outer ones comes right after a backslash. *)
Theorem QuoteIdent_escapes_every_backtick (ident : bytes)
    (Hquoted : bareIdent ident = false) :
  exists body : bytes,
    QuoteIdent ident = backtick ++ body ++ backtick
    /\ backticksEscaped "`" body = true.
Proof.
  exists (gobytes.ReplaceAll ident backtick backtickEsc). split.
  - destruct ident as [|c ident]; [done|].
    unfold QuoteIdent, escapeStartsNumeric.
    pose proof (escapeStartsNumericFrom_spec backtick backtick backtickEsc
                  (c :: ident) (length (c :: ident)) [] ltac:(lia) eq_refl
                  ltac:(done)) as H.
    cbn [app length] in H. cbn [length]. rewrite H.
    change (headOK (c :: ident) && forallb wordByte (c :: ident))
      with (bareIdent (c :: ident)). by rewrite Hquoted.
  - unfold gobytes.ReplaceAll. cbn [backtick].
    destruct (replace_backticks_escaped (length ident) ident "`"%char); [done | lia].
Qed.

(** An instance: [a`b] becomes [`a\`b`]. *)
Lemma QuoteIdent_escapes_every_backtick_witness :
  exists body : bytes,
    QuoteIdent (B "a`b") = backtick ++ body ++ backtick
    /\ backticksEscaped "`" body = true.
Proof.
  apply (QuoteIdent_escapes_every_backtick (B "a`b")). reflexivity.
Defined.

End Quoting.

(** ** What unescaping can and cannot produce *)

Section Unescaping.
Import ghc.

Lemma decode_without_percent (tbl : list (ascii * ascii * ascii)) (s : bytes) :
  Forall (fun c => beq c "%" = false) s -> spec.decode tbl s = s.
Proof.
  induction 1 as [|c s Hc _ IH]; [done|].
  cbn [spec.decode]. rewrite Hc, IH. by destruct s as [|a [|b rest]].
Qed.

(** A text without a percent sign is unescaped to itself, as data and, when
    it is not empty, as a property value. *)
Theorem unescape_keeps_text_without_percent (s : bytes)
    (Hplain : Forall (fun c => beq c "%" = false) s) :
  unescapeData s = s
  /\ unescapeProperty s = match s with [] => None | _ :: _ => Some s end.
Proof.
  rewrite unescapeData_decode, unescapeProperty_decode.
  rewrite !decode_without_percent by done. by destruct s.
Qed.

(** An instance: a path. *)
Lemma unescape_keeps_text_without_percent_witness :
  unescapeData (B "src/main.go") = B "src/main.go"
  /\ unescapeProperty (B "src/main.go") = Some (B "src/main.go").
Proof.
  apply (unescape_keeps_text_without_percent (B "src/main.go")).
  by repeat constructor.
Defined.

Lemma decode_same_length (tbl : list (ascii * ascii * ascii)) (n : nat) :
  forall s : bytes, (length s <= n)%nat ->
  length (spec.decode tbl s) = length s -> spec.decode tbl s = s.
Proof.
  induction n as [|n IH]; intros s Hn.
  - destruct s; [done | cbn in Hn; lia].
  - destruct s as [|p [|a [|b rest]]]; try done.
    change (spec.decode tbl (p :: a :: b :: rest))
      with (match (if beq p "%" then spec.escapeOf tbl a b else None) with
            | Some c => c :: spec.decode tbl rest
            | None => p :: spec.decode tbl (a :: b :: rest)
            end).
    destruct (if beq p "%" then spec.escapeOf tbl a b else None).
    + cbn [length]. pose proof (decode_length tbl rest). lia.
    + change (length (p :: ?l)) with (S (length l)).
      intros [= Hl]. f_equal. apply IH; [cbn [length] in *; lia | done].
Qed.

(** Unescaping never lengthens: the data and a property value are at most
    as long as what they were read from, a property value is never empty,
    and the data is as long only when it is unchanged. *)
Theorem unescape_never_lengthens (s : bytes) :
  (length (unescapeData s) <= length s)%nat
  /\ (forall p, unescapeProperty s = Some p -> (0 < length p <= length s)%nat)
  /\ (length (unescapeData s) = length s <-> unescapeData s = s).
Proof.
  rewrite unescapeData_decode.
  split; [apply decode_length|]. split.
  { intros p. rewrite unescapeProperty_decode.
    destruct s as [|c s]; [done|]. intros Hp.
    assert (Hd : p = spec.decode spec.propertyEscapes (c :: s)) by congruence.
    rewrite Hd. clear Hp Hd. split; [|apply decode_length].
    pose proof (decode_nonempty spec.propertyEscapes (c :: s) ltac:(done)) as Hne.
    destruct (spec.decode _ _); [done | cbn; lia]. }
  split; [|by intros ->]. apply (decode_same_length _ (length s)). lia.
Qed.

Lemma decode_escape (tbl : list (ascii * ascii * ascii)) (a b c : byte)
    (rest : bytes) :
  spec.escapeOf tbl a b = Some c ->
  spec.decode tbl ("%"%char :: a :: b :: rest) = c :: spec.decode tbl rest.
Proof.
  intros H.
  change (spec.decode tbl ("%"%char :: a :: b :: rest))
    with (match (if beq "%" "%" then spec.escapeOf tbl a b else None) with
          | Some c => c :: spec.decode tbl rest
          | None => "%"%char :: spec.decode tbl (a :: b :: rest)
          end).
  change (beq "%" "%") with true. cbv iota. by rewrite H.
Qed.

(** Every text is the unescaped form of data that holds neither LF nor CR,
    so that a command of one line can carry it. *)
Theorem every_text_is_the_data_of_one_line (t : bytes) :
  exists s : bytes,
    Forall (fun c => beq c LF = false /\ beq c CR = false) s
    /\ unescapeData s = t.
Proof.
  exists (flat_map (fun c => if beq c "%" then B "%25"
                             else if beq c LF then B "%0A"
                             else if beq c CR then B "%0D"
                             else [c]) t).
  rewrite unescapeData_decode. induction t as [|c t [IH1 IH2]]; [done|].
  cbn [flat_map].
  destruct (beq c "%") eqn:Hp; [|destruct (beq c LF) eqn:Hl;
                                  [|destruct (beq c CR) eqn:Hr]].
  - apply Ascii.eqb_eq in Hp as ->. split.
    + by repeat (apply Forall_cons; split; [done|]).
    + cbn [B list_ascii_of_string app]. erewrite decode_escape by reflexivity.
      f_equal. exact IH2.
  - apply Ascii.eqb_eq in Hl as ->. split.
    + by repeat (apply Forall_cons; split; [done|]).
    + cbn [B list_ascii_of_string app]. erewrite decode_escape by reflexivity.
      f_equal. exact IH2.
  - apply Ascii.eqb_eq in Hr as ->. split.
    + by repeat (apply Forall_cons; split; [done|]).
    + cbn [B list_ascii_of_string app]. erewrite decode_escape by reflexivity.
      f_equal. exact IH2.
  - split; [by apply Forall_cons|].
    cbn [app]. set (s := flat_map _ t) in *.
    transitivity (c :: spec.decode spec.dataEscapes s); [|by rewrite IH2].
    destruct s as [|a [|b rest]]; try done.
    change (spec.decode spec.dataEscapes (c :: a :: b :: rest))
      with (match (if beq c "%" then spec.escapeOf spec.dataEscapes a b
                   else None) with
            | Some x => x :: spec.decode spec.dataEscapes rest
            | None => c :: spec.decode spec.dataEscapes (a :: b :: rest)
            end).
    by rewrite Hp.
Qed.

End Unescaping.
